(** * vectorbt.utils.decorators: caching descriptors, method caches,
      attribute traversal and the accessor binder

    A shallow embedding of [vectorbt/utils/decorators.py].  Python objects
    are modelled by their [__dict__] (a finite map from attribute names to
    stored objects), the process-wide switch [defaults.caching] and the
    effects of the decorated functions by an explicit state, and raised
    exceptions by a result type. *)

From Stdlib Require Import ZArith List Bool Lia.
From Stdlib Require QArith.
From stdpp Require Import base gmap strings list.

Open Scope string_scope.
Open Scope list_scope.
Open Scope nat_scope.
Set Warnings "-register-all".

(** ** Python data *)

(** The values that flow through the decorators as arguments, results and
    configuration entries.  A finite float is represented by the rational
    number it denotes (NaN and the infinities are left out), which is all
    that [==] between numbers looks at. *)
Inductive Value : Type :=
| VNone
| VBool (b : bool)
| VInt (z : Z)
| VFloat (q : QArith_base.Q)
| VStr (s : string)
| VTuple (l : list Value)
| VList (l : list Value).

(** [type(v)] *)
Inductive PyType : Type :=
  NoneType | bool_t | int_t | float_t | str_t | tuple_t | list_t.

Global Instance PyType_eq_dec : EqDecision PyType.
Proof. solve_decision. Defined.

Definition type_of (v : Value) : PyType :=
  match v with
  | VNone => NoneType
  | VBool _ => bool_t
  | VInt _ => int_t
  | VFloat _ => float_t
  | VStr _ => str_t
  | VTuple _ => tuple_t
  | VList _ => list_t
  end.

(** Element-wise comparison of two sequences, as [tuple.__eq__] and
    [list.__eq__] do it. *)
Definition seq_eqb {A : Type} (eqb : A → A → bool) : list A → list A → bool :=
  fix go (l m : list A) : bool :=
    match l, m with
    | [], [] => true
    | x :: l', y :: m' => eqb x y && go l' m'
    | _, _ => false
    end.

(** The numeric value of a number: [bool] is a subclass of [int], and an
    [int] compares with a [float] by value. *)
Definition num_val (v : Value) : option QArith_base.Q :=
  match v with
  | VBool b => Some (QArith_base.inject_Z (if b then 1 else 0))
  | VInt z => Some (QArith_base.inject_Z z)
  | VFloat q => Some q
  | _ => None
  end.

(** [a == b] *)
Fixpoint py_eq (a b : Value) : bool :=
  match a, b with
  | VNone, VNone => true
  | VStr s, VStr t => bool_decide (s = t)
  | VTuple l, VTuple m => seq_eqb py_eq l m
  | VList l, VList m => seq_eqb py_eq l m
  | _, _ =>
      match num_val a, num_val b with
      | Some x, Some y => QArith_base.Qeq_bool x y
      | _, _ => false
      end
  end.

(** Modelled from the spec: [checks.is_hashable] is not part of this module;
    it is the predicate "classifying each call argument as key-able or
    not".  On the values above, [hash] fails exactly on a list and on a
    tuple that holds an unhashable element. *)
Fixpoint is_hashable (v : Value) : bool :=
  match v with
  | VList _ => false
  | VTuple l => forallb is_hashable l
  | _ => true
  end.

(** ** Exceptions and results *)

Inductive Exn : Type :=
| AttributeError (msg : string)
| TypeError (msg : string)
| Exception (msg : string).

Inductive Result (A : Type) : Type :=
| Return (a : A)
| Raise (e : Exn).
Arguments Return {A} a.
Arguments Raise {A} e.

(** ** functools.lru_cache

    The standard library function that [cached_method] delegates to, after
    CPython's [Lib/functools.py].  [_make_key] starts from the positional
    arguments, adds the keyword mark and the keyword items when there are
    keyword arguments, and then either adds the types of all arguments
    ([if typed:]) or, for a key of length one whose element is exactly an
    [int] or a [str], returns that element itself
    ([elif len(key) == 1 and type(key[0]) in fasttypes: return key[0]]);
    in all other cases it returns the [_HashedSeq] of the key. *)
Inductive KeyItem : Type :=
| KVal (v : Value)
| KMark
| KType (t : PyType).

Inductive Key : Type :=
| KBare (v : Value)
| KSeq (items : list KeyItem).

Definition kwd_items (kwds : list (string * Value)) : list KeyItem :=
  flat_map (λ kv, [KVal (VStr kv.1); KVal kv.2]) kwds.

Definition fasttype (v : Value) : bool :=
  match v with
  | VInt _ | VStr _ => true
  | _ => false
  end.

Definition make_key (args : list Value) (kwds : list (string * Value))
    (typed : bool) : Key :=
  let key := KVal <$> args in
  let key := match kwds with
             | [] => key
             | _ => key ++ KMark :: kwd_items kwds
             end in
  if typed then
    KSeq (key ++ ((λ v, KType (type_of v)) <$> args)
              ++ ((λ kv, KType (type_of kv.2)) <$> kwds))
  else
    match key with
    | [KVal v] => if fasttype v then KBare v else KSeq key
    | _ => KSeq key
    end.

Definition item_eq (a b : KeyItem) : bool :=
  match a, b with
  | KVal x, KVal y => py_eq x y
  | KMark, KMark => true
  | KType s, KType t => bool_decide (s = t)
  | _, _ => false
  end.

(** Equality of two keys as the cache dictionary sees it: an [int] or [str]
    never equals a [_HashedSeq]. *)
Definition key_eq (a b : Key) : bool :=
  match a, b with
  | KBare x, KBare y => py_eq x y
  | KSeq l, KSeq m => seq_eqb item_eq l m
  | _, _ => false
  end.

(** The state of one [lru_cache] wrapper: its bound ([None] is unbounded;
    a negative [maxsize] counts as 0), the [typed] flag, and the entries
    from the least to the most recently used. *)
Record LruCache : Type := mkLru {
  lru_maxsize : option nat;
  lru_typed : bool;
  lru_entries : list (Key * Value)
}.

Definition lru_cache (maxsize : option Z) (typed : bool) : LruCache :=
  mkLru (Z.to_nat <$> maxsize) typed [].

Definition cache_get (k : Key) (es : list (Key * Value)) : option (Key * Value) :=
  find (λ e, key_eq e.1 k) es.

Fixpoint unlink (k : Key) (es : list (Key * Value)) : list (Key * Value) :=
  match es with
  | [] => []
  | e :: es' => if key_eq e.1 k then es' else e :: unlink k es'
  end.

(** The keys of a cache, from the least to the most recently used, and how
    one call with key [k] changes them: a key that is there moves to the
    most recently used end (in a bounded cache); a new key is added there,
    after the least recently used key has been dropped when the cache is
    full.  This is the order the statements about eviction refer to. *)
Definition has_key (k : Key) (ks : list Key) : bool :=
  existsb (λ k', key_eq k' k) ks.

Fixpoint move_to_end (k : Key) (ks : list Key) : list Key :=
  match ks with
  | [] => []
  | k' :: ks' => if key_eq k' k then ks' ++ [k'] else k' :: move_to_end k ks'
  end.

Definition keys_step (maxsize : option nat) (k : Key) (ks : list Key)
    : list Key :=
  match maxsize with
  | Some O => ks
  | None => if has_key k ks then ks else ks ++ [k]
  | Some n =>
      if has_key k ks then move_to_end k ks
      else (if bool_decide (n ≤ length ks) then tail ks else ks) ++ [k]
  end.

Definition is_miss (maxsize : option nat) (k : Key) (ks : list Key) : bool :=
  match maxsize with
  | Some O => true
  | _ => negb (has_key k ks)
  end.

(** The keys after a run of calls, and the number of misses in the run. *)
Fixpoint keys_after (maxsize : option nat) (typed : bool)
    (argss : list (list Value * list (string * Value))) (ks : list Key)
    : list Key :=
  match argss with
  | [] => ks
  | (args, kwds) :: argss =>
      keys_after maxsize typed argss
        (keys_step maxsize (make_key args kwds typed) ks)
  end.

Fixpoint misses (maxsize : option nat) (typed : bool)
    (argss : list (list Value * list (string * Value))) (ks : list Key)
    : nat :=
  match argss with
  | [] => 0
  | (args, kwds) :: argss =>
      (if is_miss maxsize (make_key args kwds typed) ks then 1 else 0)
      + misses maxsize typed argss
          (keys_step maxsize (make_key args kwds typed) ks)
  end.

(** Two keys that the cache dictionary takes for the same key. *)
Definition keq (a b : Key) : Prop := key_eq a b = true.

(** The keys used so far, each once, from the least to the most recently
    used: a use of [k] removes the keys equal to [k] and puts [k] last. *)
Definition touch (k : Key) (r : list Key) : list Key :=
  filter (λ k', key_eq k' k = false) r ++ [k].

Definition recency (history : list Key) : list Key :=
  foldl (λ r k, touch k r) [] history.

(** The last [N] of them. *)
Definition most_recent (N : nat) (r : list Key) : list Key :=
  drop (length r - N) r.

(** No two keys of the list are equal as keys. *)
Fixpoint distinct (r : list Key) : Prop :=
  match r with
  | [] => True
  | k :: r' => Forall (λ k', key_eq k k' = false) r' ∧ distinct r'
  end.

(** A cache with bound [N] that holds no more than [N] entries. *)
Definition within (N : nat) (c : LruCache) : Prop :=
  lru_maxsize c = Some N ∧ length (lru_entries c) ≤ N.

(** ** Objects *)

(** What an instance [__dict__] can hold under a cache attribute: a plain
    value (a cached property) or an [lru_cache] wrapper (a cached method). *)
Inductive Stored : Type :=
| SVal (v : Value)
| SCache (c : LruCache).

(** An instance is its [__dict__]. *)
Abbreviation Instance := (gmap string Stored).

(** The type of an instance, as an attribute lookup on the instance sees
    it: the names the lookup finds without the instance [__dict__] (an
    attribute of the class or of one of its bases, or a name for which a
    [__getattr__] of theirs returns). *)
Abbreviation Owner := (string → bool).

(** [hasattr(instance, name)]: the instance [__dict__] holds the name, or
    the type of the instance answers for it. *)
Definition hasattr (owner : Owner) (instance : Instance) (name : string)
    : bool :=
  bool_decide (is_Some (instance !! name)) || owner name.

(** [delattr(instance, name)] deletes from the instance [__dict__] only,
    and raises when the name is not there (the classes considered define
    no [__delattr__] and no descriptor with [__delete__] under the name of
    a cache attribute). *)
Definition delattr (instance : Instance) (name : string) : Result Instance :=
  match instance !! name with
  | Some _ => Return (delete name instance)
  | None => Raise (AttributeError name)
  end.

(** The configuration given to a decorator ([**kwargs]) is a dictionary
    object of its own; a descriptor holds a reference to it. *)
Abbreviation loc := nat.

Section Decorators.

(** Whatever the decorated functions read and write besides the instance
    they are given. *)
Context {W : Type}.

(** A decorated function: its [__name__] and its effect.  It is given the
    instance and the call arguments; it returns or raises.  As the
    docstring of [cached_method] assumes, it does not change the
    instance. *)
Record PyFunction : Type := mkFunction {
  fn_name : string;
  fn_body : W → Instance → list Value → list (string * Value) → Result Value * W
}.

Record Call : Type := mkCall {
  call_func : string;
  call_args : list Value;
  call_kwargs : list (string * Value);
  call_result : Result Value
}.

(** The process state the decorators run in: the switch
    [vectorbt.defaults.caching], the world of the decorated functions, and
    the log of their invocations. *)
Record State : Type := mkState {
  caching : bool;
  world : W;
  calls : list Call
}.

Definition invoke (f : PyFunction) (instance : Instance) (args : list Value)
    (kwargs : list (string * Value)) (st : State) : Result Value * State :=
  let (r, w) := fn_body f (world st) instance args kwargs in
  (r, mkState (caching st) w (calls st ++ [mkCall (fn_name f) args kwargs r])).

(** How often the function called [name] has been invoked so far, and how
    often it has returned. *)
Definition invocations (name : string) (st : State) : nat :=
  length (filter (λ c, call_func c = name) (calls st)).

Definition returned (c : Call) : bool :=
  match call_result c with
  | Return _ => true
  | Raise _ => false
  end.

Definition completions (name : string) (st : State) : nat :=
  length (filter (λ c, call_func c = name ∧ returned c = true) (calls st)).

(** ** custom_property *)

Record custom_property : Type := mk_custom_property {
  func : PyFunction;
  kwargs : loc
}.

(** What an attribute access through a descriptor yields: the descriptor
    itself, or the outcome of a computation. *)
Inductive Access : Type :=
| Self
| Computed (r : Result Stored).

Definition stored (r : Result Value) : Result Stored :=
  match r with
  | Return v => Return (SVal v)
  | Raise e => Raise e
  end.

(** [__get__] with an instance at hand: [self.func(instance)]. *)
Definition custom_get (self : custom_property) (instance : Instance)
    (st : State) : Result Stored * State :=
  let (r, st) := invoke (func self) instance [] [] st in
  (stored r, st).

Definition custom_property_get (self : custom_property)
    (instance : option Instance) (st : State) : Access * State :=
  match instance with
  | None => (Self, st)
  | Some instance =>
      let (r, st) := custom_get self instance st in
      (Computed r, st)
  end.

Definition custom_property_set (self : custom_property) (obj : Instance)
    (value : Value) : Result Instance :=
  Raise (AttributeError "can't set attribute").

(** ** cached_property *)

(** The descriptor as it stands once the class body has run: [__init__]
    has stored the function, the configuration and the [disabled] flag,
    and [__set_name__] the name of the slot. *)
Record cached_property : Type := mk_cached_property {
  base : custom_property;
  attrname : string;
  disabled : bool
}.

(** A cached property declared under [name] in a class body. *)
Definition declare (name : string) (func : PyFunction) (disabled : bool)
    (kwargs : loc) : cached_property :=
  mk_cached_property (mk_custom_property func kwargs) ("__cached_" +:+ name)
    disabled.

(** [owner] is the type of [instance]. *)
Definition clear_cache (self : cached_property) (owner : Owner)
    (instance : Instance) : Result Instance :=
  if hasattr owner instance (attrname self)
  then delattr instance (attrname self)
  else Return instance.

(** [__get__] on an instance (lines 136 to 147).  The lock is reentrant and
    the model sequential, so taking it changes nothing; the second read of
    the slot under the lock is kept. *)
Definition get (self : cached_property) (instance : Instance) (st : State)
    : Result Stored * Instance * State :=
  if negb (caching st) || disabled self then
    let (r, st) := custom_get (base self) instance st in
    (r, instance, st)
  else
    let cache := instance in
    match cache !! attrname self with
    | Some val => (Return val, cache, st)
    | None =>
        match cache !! attrname self with
        | Some val => (Return val, cache, st)
        | None =>
            match invoke (func (base self)) instance [] [] st with
            | (Return val, st) =>
                (Return (SVal val), <[attrname self := SVal val]> cache, st)
            | (Raise e, st) => (Raise e, cache, st)
            end
        end
    end.

Definition cached_property_get (self : cached_property)
    (instance : option Instance) (st : State)
    : Access * option Instance * State :=
  match instance with
  | None => (Self, None, st)
  | Some instance =>
      let '(r, instance, st) := get self instance st in
      (Computed r, Some instance, st)
  end.

(** A function that returns on every call. *)
Definition total (f : PyFunction) : Prop :=
  ∀ w instance args kwargs, ∃ v w',
    fn_body f w instance args kwargs = (Return v, w').

(** [n] accesses to the property in a row. *)
Fixpoint gets (self : cached_property) (n : nat) (instance : Instance)
    (st : State) : Instance * State :=
  match n with
  | O => (instance, st)
  | S n =>
      let '(_, instance, st) := get self instance st in
      gets self n instance st
  end.

(** ** The wrapper that [lru_cache] returns

    [user_function] is called on a miss; a result is stored, an exception
    is not.  With a bound of 0 nothing is ever stored; without a bound
    nothing is ever evicted; otherwise a hit moves the entry to the most
    recently used end and a miss at capacity drops the entry at the least
    recently used end.  The decorated functions do not call back into the
    cache they are computed for. *)
Definition lru_wrapper (c : LruCache)
    (user_function : list Value → list (string * Value) → State → Result Value * State)
    (args : list Value) (kwds : list (string * Value)) (st : State)
    : Result Value * LruCache * State :=
  let key := make_key args kwds (lru_typed c) in
  let es := lru_entries c in
  match lru_maxsize c with
  | Some O =>
      let (r, st) := user_function args kwds st in (r, c, st)
  | None =>
      match cache_get key es with
      | Some e => (Return e.2, c, st)
      | None =>
          match user_function args kwds st with
          | (Return result, st) =>
              (Return result, mkLru None (lru_typed c) (es ++ [(key, result)]), st)
          | (Raise e, st) => (Raise e, c, st)
          end
      end
  | Some maxsize =>
      match cache_get key es with
      | Some e =>
          (Return e.2, mkLru (Some maxsize) (lru_typed c) (unlink key es ++ [e]), st)
      | None =>
          match user_function args kwds st with
          | (Return result, st) =>
              let full := bool_decide (maxsize ≤ length es) in
              let es := if full then tail es else es in
              (Return result,
               mkLru (Some maxsize) (lru_typed c) (es ++ [(key, result)]), st)
          | (Raise e, st) => (Raise e, c, st)
          end
      end
  end.

(** ** cached_method *)

(** The attributes [decorator] sets on the wrapper function. *)
Record cached_method : Type := mk_cached_method {
  m_func : PyFunction;
  m_maxsize : option Z;
  m_typed : bool;
  m_attrname : string;
  m_disabled : bool;
  m_kwargs : loc
}.

Definition decorator (func : PyFunction) (maxsize : option Z)
    (typed disabled : bool) (kwargs : loc) : cached_method :=
  mk_cached_method func maxsize typed ("__cached_" +:+ fn_name func)
    disabled kwargs.

Definition all_hashable (args : list Value) (kwargs : list (string * Value))
    : bool :=
  forallb is_hashable args && forallb (λ kv, is_hashable kv.2) kwargs.

(** Lines 213 to 221: the cache object of the instance, made and stored
    first when the instance has none (the slot is read again under the
    lock). *)
Definition cached_func_of (self : cached_method) (cache : Instance)
    : Stored * Instance :=
  match cache !! m_attrname self with
  | Some cached_func => (cached_func, cache)
  | None =>
      match cache !! m_attrname self with
      | Some cached_func => (cached_func, cache)
      | None =>
          let cached_func :=
            SCache (lru_cache (m_maxsize self) (m_typed self)) in
          (cached_func, <[m_attrname self := cached_func]> cache)
      end
  end.

(** The [wrapper] of a cached method, called on an instance.  The
    [lru_cache] wrapper kept in the instance is a mutable object: what a
    call does to it is written back under the same attribute. *)
Definition wrapper (self : cached_method) (instance : Instance)
    (args : list Value) (kwargs : list (string * Value)) (st : State)
    : Result Value * Instance * State :=
  let partial_func instance args kwargs st :=
    invoke (m_func self) instance args kwargs st in
  if negb (caching st) || m_disabled self then
    let (r, st) := invoke (m_func self) instance args kwargs st in
    (r, instance, st)
  else
    let '(cached_func, cache) := cached_func_of self instance in
    if negb (all_hashable args kwargs) then
      let (r, st) := invoke (m_func self) cache args kwargs st in
      (r, cache, st)
    else
      match cached_func with
      | SCache c =>
          let '(r, c, st) := lru_wrapper c (partial_func cache) args kwargs st in
          (r, <[m_attrname self := SCache c]> cache, st)
      | SVal _ =>
          (Raise (TypeError "object is not callable"), cache, st)
      end.

(** The cache object a call on the instance works with: the one the
    instance holds, or the empty one that the call makes. *)
Definition cache_of (self : cached_method) (instance : Instance) : LruCache :=
  match instance !! m_attrname self with
  | Some (SCache c) => c
  | _ => lru_cache (m_maxsize self) (m_typed self)
  end.

(** The entries of the keyed cache of the instance, and the result it
    holds for given arguments, if any. *)
Definition cached_entries (self : cached_method) (instance : Instance)
    : list (Key * Value) :=
  lru_entries (cache_of self instance).

Definition cached (self : cached_method) (instance : Instance)
    (args : list Value) (kwargs : list (string * Value)) : option Value :=
  snd <$> cache_get (make_key args kwargs (lru_typed (cache_of self instance)))
                    (cached_entries self instance).

(** The slot of the method holds no plain value (it is empty or holds a
    cache object). *)
Definition callable_slot (self : cached_method) (instance : Instance) : Prop :=
  ∀ v, instance !! m_attrname self ≠ Some (SVal v).

(** Calls in a row, each with its positional and keyword arguments. *)
Fixpoint call_all (self : cached_method)
    (argss : list (list Value * list (string * Value)))
    (instance : Instance) (st : State) : Instance * State :=
  match argss with
  | [] => (instance, st)
  | (args, kwargs) :: argss =>
      let '(_, instance, st) := wrapper self instance args kwargs st in
      call_all self argss instance st
  end.

Definition method_clear_cache (self : cached_method) (owner : Owner)
    (instance : Instance) : Result Instance :=
  if hasattr owner instance (m_attrname self)
  then delattr instance (m_attrname self)
  else Return instance.

End Decorators.

(** ** traverse_attr_kwargs *)

Abbreviation ClassId := nat.

(** What a configuration dictionary, or the dictionary the traversal builds,
    can hold: plain data, a class, a reference to the configuration
    dictionary of a member (a shared, mutable object), or a dictionary
    built by a traversal. *)
Inductive Obj : Type :=
| OVal (v : Value)
| OType (c : ClassId)
| ORef (l : loc)
| OAttrs (d : gmap string Obj).

Abbreviation Dict := (gmap string Obj).

(** The configuration dictionaries of all members, by reference. *)
Abbreviation Heap := (gmap loc Dict).

(** A class as the traversal sees it: for every name in [dir(cls)], the
    [kwargs] attribute of [getattr(cls, name)] when it has one. *)
Abbreviation Classes := (gmap ClassId (list (string * option loc))).

Definition dir (classes : Classes) (c : ClassId) : list (string * option loc) :=
  default [] (classes !! c).

(** Modelled from the spec: [checks.assert_type(arg, type)] is not part of
    this module; it "fails with a type-mismatch error" when the argument
    "is not itself a type/class value". *)
Definition assert_type (arg : Obj) : Result ClassId :=
  match arg with
  | OType c => Return c
  | _ => Raise (TypeError "Type must be type")
  end.

(** Lines 272 and 273: a filter value that is not a tuple becomes a
    one-element tuple; [None] stays. *)
Definition normalize (value : Value) : Value :=
  match value with
  | VNone => VNone
  | VTuple _ => value
  | _ => VTuple [value]
  end.

(** [_value in value] for a tuple of plain data. *)
Definition obj_in (_value : Obj) (value : list Value) : bool :=
  existsb (λ e, match _value with OVal v => py_eq e v | _ => false end) value.

(** Lines 279 to 288: does the member pass the filter? *)
Definition selected (key : option string) (value : Value) (kwargs : Dict) : bool :=
  match key with
  | None => true
  | Some key =>
      match kwargs !! key with
      | None => false
      | Some _value =>
          match value with
          | VNone => true
          | VTuple value => obj_in _value value
          | other => obj_in _value [other]
          end
      end
  end.

(** The body of the loop over [dir(cls)], with the recursive call as a
    parameter.  [attrs[attr] = kwargs] stores the configuration dictionary
    itself, so the assignment to [attrs[attr]['child_attrs']] updates that
    dictionary in place. *)
Fixpoint loop (rec : Obj → Heap → option (Result (Dict * Heap)))
    (key : option string) (value : Value)
    (members : list (string * option loc)) (attrs : Dict) (h : Heap)
    : option (Result (Dict * Heap)) :=
  match members with
  | [] => Some (Return (attrs, h))
  | (attr, prop) :: members =>
      match prop with
      | None => loop rec key value members attrs h
      | Some l =>
          match h !! l with
          | None => loop rec key value members attrs h
          | Some kwargs =>
              let attrs :=
                if selected key value kwargs then <[attr := ORef l]> attrs
                else attrs in
              match kwargs !! "child_cls" with
              | None => loop rec key value members attrs h
              | Some child_cls =>
                  match assert_type child_cls with
                  | Raise e => Some (Raise e)
                  | Return _ =>
                      let attrs := <[attr := ORef l]> attrs in
                      match rec child_cls h with
                      | None => None
                      | Some (Raise e) => Some (Raise e)
                      | Some (Return (child_attrs, h)) =>
                          let h := alter (insert "child_attrs" (OAttrs child_attrs)) l h in
                          loop rec key value members attrs h
                      end
                  end
              end
          end
      end
  end.

(** The traversal.  The recursion follows the [child_cls] entries and need
    not end, so it is bounded by [fuel]; [None] is a recursion that did not
    end within the bound. *)
Fixpoint traverse_attr_kwargs (fuel : nat) (classes : Classes) (cls : Obj)
    (key : option string) (value : Value) (h : Heap)
    : option (Result (Dict * Heap)) :=
  match fuel with
  | O => None
  | S fuel =>
      match assert_type cls with
      | Raise e => Some (Raise e)
      | Return c =>
          let value := normalize value in
          loop (λ child h, traverse_attr_kwargs fuel classes child key value h)
            key value (dir classes c) ∅ h
      end
  end.

(** What a traversal may do to the configuration dictionaries: each one
    is as it was, or is one with a [child_cls] entry whose [child_attrs]
    entry has been set. *)
Definition updated (h h' : Heap) : Prop :=
  ∀ l, h' !! l = h !! l ∨
       ∃ kwargs sub, h !! l = Some kwargs ∧ is_Some (kwargs !! "child_cls") ∧
                     h' !! l = Some (<["child_attrs" := OAttrs sub]> kwargs).

(** The members that a traversal with the given filter puts into its
    result, read off the configuration before the traversal. *)
Definition listed (key : option string) (value : Value) (h : Heap)
    (members : list (string * option loc)) (attr : string) : Prop :=
  ∃ l kwargs, (attr, Some l) ∈ members ∧ h !! l = Some kwargs ∧
    (selected key value kwargs = true ∨ is_Some (kwargs !! "child_cls")).

(** The [child_cls] entries lead to classes of smaller rank: the classes
    reachable from one another form no cycle. *)
Definition ranked (classes : Classes) (rank : ClassId → nat) (h : Heap) : Prop :=
  ∀ c attr l kwargs child,
    (attr, Some l) ∈ dir classes c → h !! l = Some kwargs →
    kwargs !! "child_cls" = Some child →
    ∃ c', child = OType c' ∧ rank c' < rank c.

(** ** add_nb_methods *)


(** [s.replace(old, new)] for a non-empty [old]: the occurrences of [old]
    are found from left to right and do not overlap.  [skip] counts the
    characters of the occurrence just replaced that are still to be
    dropped. *)
Fixpoint replace_from (old new : string) (skip : nat) (s : string) : string :=
  match s with
  | EmptyString => EmptyString
  | String c s' =>
      match skip with
      | S skip => replace_from old new skip s'
      | O =>
          if String.prefix old s
          then new +:+ replace_from old new (String.length old - 1) s'
          else String c (replace_from old new 0 s')
      end
  end.

Definition replace (old new s : string) : string := replace_from old new 0 s.

(** A Numba function as the binder sees it: its [__name__] and the
    parameters of its signature with their default values. *)
Record NbFunc : Type := mkNbFunc {
  nb_name : string;
  nb_parameters : list (string * option Value)
}.


(** The method the binder builds for one function: the function and the
    defaults it closes over, whether it passes a one-dimensional view
    (['_1d' in nb_func.__name__]), and its docstring. *)
Record NbMethod : Type := mkNbMethod {
  nbm_func : NbFunc;
  nbm_default_kwargs : list (string * Value);
  nbm_one_dim : bool;
  nbm_doc : string
}.


(** The attribute name of line 59. *)
Definition method_name (nb_func : NbFunc) : string :=
  replace "_nb" "" (replace "_1d" "" (nb_name nb_func)).

(** The attributes of an accessor class: those it has of its own and those
    the binder sets. *)
Inductive ClassAttr : Type :=
| Plain (v : Value)
| Bound (m : NbMethod).

Abbreviation Accessor := (gmap string ClassAttr).


(** ** States of the configuration that a traversal relates *)

(** Two states of the configuration dictionaries that a traversal cannot
    tell apart: the same dictionaries exist, they declare the same child
    classes, and those without a child class are equal. *)
Definition similar (h h1 : Heap) : Prop :=
  ∀ l, match h !! l, h1 !! l with
       | None, None => True
       | Some kwargs, Some kwargs1 =>
           kwargs !! "child_cls" = kwargs1 !! "child_cls" ∧
           (kwargs !! "child_cls" = None → kwargs = kwargs1)
       | _, _ => False
       end.

(** The dictionary at [l] declares a child class and holds, under
    [child_attrs], what a traversal of that class on the configuration
    [h0] returns. *)
Definition written (classes : Classes) (key : option string) (value : Value)
    (h0 h : Heap) (l : loc) : Prop :=
  ∃ kwargs c' sub h2 fuel,
    h0 !! l = Some kwargs ∧ kwargs !! "child_cls" = Some (OType c') ∧
    h !! l = Some (<["child_attrs" := OAttrs sub]> kwargs) ∧
    traverse_attr_kwargs fuel classes (OType c') key value h0
      = Some (Return (sub, h2)).

(** Every dictionary of [h] is as in [h0] or has been written as above. *)
Definition traced (classes : Classes) (key : option string) (value : Value)
    (h0 h : Heap) : Prop :=
  ∀ l, h !! l = h0 !! l ∨ written classes key value h0 h l.

(** * Sample declarations

    Concrete members, classes and functions on which the statements below
    are exercised. *)

(** Functions that always return a value, that always raise, and one that
    raises on its first call only (its world counts the calls). *)
Definition constant (name : string) (v : Value) : @PyFunction unit :=
  mkFunction name (λ w _ _ _, (Return v, w)).

Definition failing (name : string) : @PyFunction unit :=
  mkFunction name (λ w _ _ _, (Raise (Exception "failed"), w)).

Definition flaky (name : string) : @PyFunction nat :=
  mkFunction name
    (λ w _ _ _, match w with
                | O => (Raise (Exception "not ready"), 1)
                | S _ => (Return (VInt (Z.of_nat w)), S w)
                end).

(** A process with caching switched on, nothing invoked yet. *)
Definition started {W : Type} (w : W) : @State W := mkState true w [].

(** A cached property declared as [p], with the given function. *)
Definition property_p {W : Type} (f : @PyFunction W) : @cached_property W :=
  declare "p" f false 0.

(** A cached method with the default [maxsize] of 128. *)
Definition method_f {W : Type} (f : @PyFunction W) (typed : bool)
    : @cached_method W :=
  decorator f (Some 128%Z) typed false 0.

(** The float 1.0. *)
Definition one_float : Value := VFloat (QArith_base.Qmake 1 1).

(** A class with three annotated members, a member that declares a child
    class, and an attribute without configuration; the child class has one
    annotated member. *)
Definition sample_classes : Classes :=
  {[ 0 := [("a", Some 0); ("b", Some 1); ("c", Some 2); ("child", Some 3);
           ("__doc__", None)];
     1 := [("x", Some 4)] ]}.

Definition sample_heap : Heap :=
  {[ 0 := {[ "tag" := OVal (VInt 1) ]};
     1 := {[ "tag" := OVal (VInt 2) ]};
     2 := {[ "other" := OVal (VInt 1) ]};
     3 := {[ "child_cls" := OType 1 ]};
     4 := {[ "tag" := OVal (VInt 1) ]} ]}.

Definition sample_rank (c : ClassId) : nat :=
  match c with
  | O => 1
  | _ => 0
  end.



(** What the traversal of the sample class with the filter
    [tag in (1, 3)] returns and leaves behind. *)
Definition sample_attrs : Dict := {[ "a" := ORef 0; "child" := ORef 3 ]}.

Definition sample_heap_after : Heap :=
  <[3 := {[ "child_cls" := OType 1;
            "child_attrs" := OAttrs {[ "x" := ORef 4 ]} ]}]> sample_heap.

(** A class whose only member declares the class itself as its child, and
    a configuration in which the member declares a child that is no
    class. *)
Definition looping_classes : Classes := {[ 0 := [("again", Some 0)] ]}.


Definition untyped_heap : Heap :=
  {[ 0 := {[ "child_cls" := OVal (VStr "Child") ]} ]}.


(** A property and a method without a bound, both with a function that
    returns 7, and an instance on which the property has been computed. *)
Definition property_seven : @cached_property unit :=
  property_p (constant "p" (VInt 7)).

Definition unbounded_f : @cached_method unit :=
  decorator (constant "f" (VInt 7)) None false false 0.

Definition computed_p : Instance := {[ "__cached_p" := SVal (VInt 7) ]}.

(** The type of an instance that answers for no name of its own, and one
    with a [__getattr__] that returns for every name. *)
Definition plain_type : Owner := λ _, false.

Definition with_getattr : Owner := λ _, true.

(** The float 0.0. *)
Definition zero_float : Value := VFloat (QArith_base.Qmake 0 1).

(** * Properties *)

Section DecoratorFacts.

Context {W : Type}.
Implicit Types (st : @State W) (o : Instance).

(** ** Invocations *)

Lemma invoke_caching f o args kwargs st :
  caching (invoke f o args kwargs st).2 = caching st.
Proof. unfold invoke. by destruct (fn_body _ _ _ _ _). Qed.

Lemma invoke_result f o args kwargs st :
  (invoke f o args kwargs st).1 = (fn_body f (world st) o args kwargs).1.
Proof. unfold invoke. by destruct (fn_body _ _ _ _ _). Qed.

Lemma invoke_calls f o args kwargs st :
  calls (invoke f o args kwargs st).2 =
    calls st ++ [mkCall (fn_name f) args kwargs (invoke f o args kwargs st).1].
Proof. unfold invoke. by destruct (fn_body _ _ _ _ _). Qed.

Lemma invocations_snoc name st st' c :
  calls st' = calls st ++ [c] →
  invocations name st' =
    invocations name st + (if decide (call_func c = name) then 1 else 0).
Proof.
  intros E. unfold invocations. rewrite E, filter_app, length_app.
  f_equal. rewrite filter_cons, filter_nil. by case_decide.
Qed.

Lemma completions_snoc name st st' c :
  calls st' = calls st ++ [c] →
  completions name st' =
    completions name st +
      (if decide (call_func c = name ∧ returned c = true) then 1 else 0).
Proof.
  intros E. unfold completions. rewrite E, filter_app, length_app.
  f_equal. rewrite filter_cons, filter_nil. by case_decide.
Qed.

Lemma invocations_invoke f o args kwargs st :
  invocations (fn_name f) (invoke f o args kwargs st).2 =
    S (invocations (fn_name f) st).
Proof.
  rewrite (invocations_snoc _ st _ _ (invoke_calls f o args kwargs st)).
  simpl. rewrite decide_True by done. lia.
Qed.

Lemma completions_invoke f o args kwargs st :
  completions (fn_name f) (invoke f o args kwargs st).2 =
    completions (fn_name f) st +
      (match (invoke f o args kwargs st).1 with Return _ => 1 | Raise _ => 0 end).
Proof.
  rewrite (completions_snoc _ st _ _ (invoke_calls f o args kwargs st)).
  unfold returned. simpl.
  destruct (invoke f o args kwargs st).1.
  - by rewrite decide_True.
  - rewrite decide_False; [done|]. by intros [_ ?].
Qed.

End DecoratorFacts.

(** ** Cached properties *)

Section PropertyFacts.

Context {W : Type}.
Implicit Types (st : @State W) (o : Instance) (p : @cached_property W).

Lemma get_hit p o st s :
  caching st = true → disabled p = false → o !! attrname p = Some s →
  get p o st = (Return s, o, st).
Proof. intros Hc Hd Ho. unfold get. by rewrite Hc, Hd, Ho. Qed.

Lemma get_miss p o st :
  caching st = true → disabled p = false → o !! attrname p = None →
  get p o st =
    match invoke (func (base p)) o [] [] st with
    | (Return v, st') => (Return (SVal v), <[attrname p := SVal v]> o, st')
    | (Raise e, st') => (Raise e, o, st')
    end.
Proof. intros Hc Hd Ho. unfold get. by rewrite Hc, Hd, !Ho. Qed.

Lemma get_bypass p o st :
  negb (caching st) || disabled p = true →
  get p o st =
    (stored (invoke (func (base p)) o [] [] st).1, o,
     (invoke (func (base p)) o [] [] st).2).
Proof.
  intros Hb. unfold get, custom_get. rewrite Hb.
  by destruct (invoke _ _ _ _ _).
Qed.

Lemma get_caching p o st : caching (get p o st).2 = caching st.
Proof.
  unfold get, custom_get.
  pose proof (invoke_caching (func (base p)) o [] [] st) as Hi.
  destruct (negb (caching st) || disabled p).
  - by destruct (invoke _ _ _ _ _).
  - destruct (o !! attrname p); [done|].
    by destruct (invoke _ _ _ _ _) as [[?|?] ?].
Qed.

(** After an access that returned, with caching in force, the slot holds
    what was returned. *)
Lemma get_return_stored p o st s o1 st1 :
  caching st = true → disabled p = false →
  get p o st = (Return s, o1, st1) →
  o1 !! attrname p = Some s ∧ caching st1 = true.
Proof.
  intros Hc Hd Hg.
  pose proof (get_caching p o st) as Hk. rewrite Hg, Hc in Hk.
  split; [|done].
  destruct (o !! attrname p) as [s'|] eqn:Ho.
  - rewrite (get_hit _ _ _ s') in Hg by done. by simplify_eq.
  - rewrite get_miss in Hg by done.
    destruct (invoke _ _ _ _ _) as [[v|e] st']; simplify_eq.
    by rewrite lookup_insert_eq.
Qed.

Lemma gets_hit p n o st s :
  caching st = true → disabled p = false → o !! attrname p = Some s →
  gets p n o st = (o, st).
Proof.
  intros Hc Hd Ho. induction n as [|n IH]; [done|].
  simpl. by rewrite (get_hit _ _ _ s).
Qed.

Lemma gets_completions p n o st :
  caching st = true → disabled p = false →
  completions (fn_name (func (base p))) (gets p n o st).2
    ≤ completions (fn_name (func (base p))) st + 1.
Proof.
  revert o st. induction n as [|n IH]; intros o st Hc Hd; [simpl; lia|].
  destruct (o !! attrname p) as [s|] eqn:Ho.
  - rewrite (gets_hit _ _ _ _ s) by done. simpl. lia.
  - simpl. rewrite get_miss by done.
    pose proof (completions_invoke (func (base p)) o [] [] st) as Hk.
    pose proof (invoke_caching (func (base p)) o [] [] st) as Hi.
    destruct (invoke _ _ _ _ _) as [[v|e] st']; simpl in *.
    + rewrite (gets_hit _ _ _ _ (SVal v)); [simpl; lia|congruence|done|].
      by rewrite lookup_insert_eq.
    + specialize (IH o st'). rewrite Hk, Nat.add_0_r in IH.
      apply IH; congruence.
Qed.

Lemma gets_invocations p n o st :
  caching st = true → disabled p = false →
  total (func (base p)) →
  invocations (fn_name (func (base p))) (gets p n o st).2
    ≤ invocations (fn_name (func (base p))) st + 1.
Proof.
  intros Hc Hd Htot. destruct n as [|n]; [simpl; lia|].
  destruct (o !! attrname p) as [s|] eqn:Ho.
  - rewrite (gets_hit _ _ _ _ s) by done. simpl. lia.
  - simpl. rewrite get_miss by done.
    pose proof (invocations_invoke (func (base p)) o [] [] st) as Hk.
    pose proof (invoke_caching (func (base p)) o [] [] st) as Hi.
    pose proof (invoke_result (func (base p)) o [] [] st) as Hr.
    destruct (Htot (world st) o [] []) as (v & w' & Hf). rewrite Hf in Hr.
    destruct (invoke _ _ _ _ _) as [r st']; simpl in *. subst r.
    rewrite (gets_hit _ _ _ _ (SVal v)); [simpl; lia|congruence|done|].
    by rewrite lookup_insert_eq.
Qed.

(** C1 (as amended).  With caching in force, the function behind a cached
    property returns at most once over any number of accesses; once an
    access has returned a value, every later access returns that stored
    value and invokes nothing; a function that never raises is invoked at
    most once. *)
Theorem property_computed_at_most_once p o st n :
  caching st = true → disabled p = false →
  completions (fn_name (func (base p))) (gets p n o st).2
    ≤ completions (fn_name (func (base p))) st + 1 ∧
  (∀ s o1 st1, get p o st = (Return s, o1, st1) →
     ∀ k, gets p k o1 st1 = (o1, st1) ∧ get p o1 st1 = (Return s, o1, st1)) ∧
  (total (func (base p)) →
     invocations (fn_name (func (base p))) (gets p n o st).2
       ≤ invocations (fn_name (func (base p))) st + 1).
Proof.
  intros Hc Hd. split; [by apply gets_completions|split].
  - intros s o1 st1 Hg k.
    destruct (get_return_stored _ _ _ _ _ _ Hc Hd Hg) as [Ho1 Hc1].
    split; [by eapply gets_hit|by apply get_hit].
  - intros Htot. by apply gets_invocations.
Qed.

(** C10.  Reached through the class (no instance), a custom or cached
    property yields the descriptor itself: nothing is invoked, and no
    instance and no part of the state is read or changed, whatever the
    caching switch and the [disabled] flag say. *)
Theorem class_access_returns_descriptor (cp : @custom_property W) p st :
  custom_property_get cp None st = (Self, st) ∧
  cached_property_get p None st = (Self, None, st).
Proof. done. Qed.

Lemma clear_cache_present p owner o s :
  o !! attrname p = Some s →
  clear_cache p owner o = Return (delete (attrname p) o).
Proof.
  intros Ho. unfold clear_cache, hasattr, delattr. rewrite Ho.
  by rewrite bool_decide_eq_true_2.
Qed.

Lemma clear_cache_absent p owner o :
  o !! attrname p = None →
  clear_cache p owner o =
    if owner (attrname p) then Raise (AttributeError (attrname p))
    else Return o.
Proof.
  intros Ho. unfold clear_cache, hasattr, delattr. rewrite Ho.
  by rewrite bool_decide_eq_false_2 by (by intros [? ?]).
Qed.

Lemma clear_cache_returns p owner o o1 :
  clear_cache p owner o = Return o1 →
  o1 !! attrname p = None ∧
  ∀ name, name ≠ attrname p → o1 !! name = o !! name.
Proof.
  destruct (o !! attrname p) as [s|] eqn:Ho.
  - rewrite (clear_cache_present _ _ _ _ Ho). intros [= <-].
    split; [apply lookup_delete_eq|]. intros name Hn. by apply lookup_delete_ne.
  - rewrite clear_cache_absent by done.
    destruct (owner _); [done|]. by intros [= <-].
Qed.

Lemma get_cold_invocations p o st :
  o !! attrname p = None →
  invocations (fn_name (func (base p))) (get p o st).2
    = S (invocations (fn_name (func (base p))) st).
Proof.
  intros Ho.
  pose proof (invocations_invoke (func (base p)) o [] [] st) as Hk.
  destruct (negb (caching st) || disabled p) eqn:Hb.
  - by rewrite get_bypass.
  - apply orb_false_elim in Hb as [Hc Hd]. apply negb_false_iff in Hc.
    rewrite get_miss by done.
    by destruct (invoke _ _ _ _ _) as [[v|e] st'].
Qed.

(** After an access the slot is empty or holds what the access stored; in
    either case clearing leaves an instance whose slot is empty and whose
    other attributes are those of the instance before the access. *)
Lemma get_other_attrs p o st name :
  name ≠ attrname p → (get p o st).1.2 !! name = o !! name.
Proof.
  intros Hn. unfold get, custom_get.
  destruct (negb (caching st) || disabled p).
  - by destruct (invoke _ _ _ _ _).
  - destruct (o !! attrname p); [done|].
    destruct (invoke _ _ _ _ _) as [[v|e] st']; [|done].
    simpl. by rewrite lookup_insert_ne.
Qed.

(** An access invokes the function unless it finds the value in the
    slot. *)
Lemma get_invocations p o st :
  invocations (fn_name (func (base p))) (get p o st).2
    = invocations (fn_name (func (base p))) st +
      (if caching st && negb (disabled p)
          && bool_decide (is_Some (o !! attrname p)) then 0 else 1).
Proof.
  destruct (o !! attrname p) as [s|] eqn:Ho.
  - rewrite bool_decide_eq_true_2 by (by eexists). rewrite andb_true_r.
    destruct (negb (caching st) || disabled p) eqn:Hb.
    + rewrite get_bypass by done. simpl. rewrite invocations_invoke.
      replace (caching st && negb (disabled p)) with false; [lia|].
      destruct (caching st), (disabled p); done.
    + apply orb_false_elim in Hb as [Hc Hd]. apply negb_false_iff in Hc.
      rewrite (get_hit _ _ _ _ Hc Hd Ho), Hc, Hd. simpl. lia.
  - rewrite bool_decide_eq_false_2 by (by intros [? ?]). rewrite andb_false_r.
    rewrite get_cold_invocations by done. lia.
Qed.

(** After an access with caching that finds the slot filled, or whose
    function returns, the instance holds the slot. *)
Lemma get_fills p o st :
  caching st = true → disabled p = false →
  is_Some (o !! attrname p) ∨
    (∃ v, (fn_body (func (base p)) (world st) o [] []).1 = Return v) →
  is_Some ((get p o st).1.2 !! attrname p).
Proof.
  intros Hc Hd Hs. destruct (o !! attrname p) as [s|] eqn:Ho.
  - rewrite (get_hit _ _ _ _ Hc Hd Ho). simpl. rewrite Ho. by eexists.
  - destruct Hs as [[? ?]|[v Hv]]; [done|].
    rewrite <- invoke_result in Hv. rewrite get_miss by done.
    destruct (invoke _ _ _ _ _) as [r st']. simpl in Hv. subst r. simpl.
    rewrite lookup_insert_eq. by eexists.
Qed.

(** C6 (as amended).  Clearing removes the slot when the instance holds
    it.  When the instance does not hold it, clearing changes nothing if
    the type of the instance does not answer for the name of the slot
    either, and raises an attribute error if it does.  A clearing that
    returns leaves the slot empty and every other attribute as it was;
    clearing again then changes nothing (for a type that does not answer),
    and the next access invokes the function.  After an access the
    clearing returns when the type does not answer for the name, or when
    the access was made with caching and found or stored a value; and
    then an access, a clearing and another access invoke the function
    twice, except that they invoke it once when the first access found the
    value in the slot. *)
Theorem clear_then_recompute p owner o st :
  (∀ s, o !! attrname p = Some s →
        clear_cache p owner o = Return (delete (attrname p) o)) ∧
  (o !! attrname p = None → owner (attrname p) = false →
     clear_cache p owner o = Return o) ∧
  (o !! attrname p = None → owner (attrname p) = true →
     clear_cache p owner o = Raise (AttributeError (attrname p))) ∧
  (∀ o1, clear_cache p owner o = Return o1 →
     o1 !! attrname p = None ∧
     (∀ name, name ≠ attrname p → o1 !! name = o !! name) ∧
     (owner (attrname p) = false → clear_cache p owner o1 = Return o1) ∧
     invocations (fn_name (func (base p))) (get p o1 st).2
       = S (invocations (fn_name (func (base p))) st)) ∧
  (owner (attrname p) = false ∨
   (caching st = true ∧ disabled p = false ∧
    (is_Some (o !! attrname p) ∨
     ∃ v, (fn_body (func (base p)) (world st) o [] []).1 = Return v)) →
   ∃ o2, clear_cache p owner (get p o st).1.2 = Return o2) ∧
  (∀ o2, clear_cache p owner (get p o st).1.2 = Return o2 →
     invocations (fn_name (func (base p))) (get p o2 (get p o st).2).2
       = invocations (fn_name (func (base p))) st +
         (if caching st && negb (disabled p)
             && bool_decide (is_Some (o !! attrname p)) then 1 else 2)).
Proof.
  split_and!.
  - apply clear_cache_present.
  - intros Ho Hn. by rewrite clear_cache_absent, Hn.
  - intros Ho Hn. by rewrite clear_cache_absent, Hn.
  - intros o1 Hcl. destruct (clear_cache_returns _ _ _ _ Hcl) as [Ho1 Hoth].
    split_and!; [done|done| |by apply get_cold_invocations].
    intros Hn. by rewrite clear_cache_absent, Hn.
  - intros Hs.
    destruct ((get p o st).1.2 !! attrname p) as [s|] eqn:Hg.
    { eexists. by eapply clear_cache_present. }
    destruct Hs as [Hn|(Hc & Hd & Hs)].
    + exists (get p o st).1.2. by rewrite clear_cache_absent, Hn.
    + pose proof (get_fills p o st Hc Hd Hs) as [s Hs'].
      rewrite Hs' in Hg. done.
  - intros o2 Hcl. destruct (clear_cache_returns _ _ _ _ Hcl) as [Ho2 _].
    rewrite (get_cold_invocations _ _ _ Ho2), get_invocations.
    destruct (caching st && negb (disabled p)
              && bool_decide (is_Some (o !! attrname p))); lia.
Qed.

End PropertyFacts.

(** ** Equality of values and keys *)

Lemma Value_deep_ind (P : Value → Prop) :
  P VNone → (∀ b, P (VBool b)) → (∀ z, P (VInt z)) → (∀ q, P (VFloat q)) →
  (∀ s, P (VStr s)) →
  (∀ l, Forall P l → P (VTuple l)) →
  (∀ l, Forall P l → P (VList l)) →
  ∀ v, P v.
Proof.
  intros HN HB HI HF HS HT HL. fix IH 1.
  intros [ |b|z|q|s|l|l]; [done..| |].
  - apply HT. induction l as [|x l IHl]; constructor; [apply IH|apply IHl].
  - apply HL. induction l as [|x l IHl]; constructor; [apply IH|apply IHl].
Qed.

Lemma Qeq_bool_comm x y :
  QArith_base.Qeq_bool x y = QArith_base.Qeq_bool y x.
Proof.
  destruct (QArith_base.Qeq_bool y x) eqn:E.
  - by apply QArith_base.Qeq_bool_sym.
  - destruct (QArith_base.Qeq_bool x y) eqn:E'; [|done].
    apply QArith_base.Qeq_bool_sym in E'. congruence.
Qed.

Lemma seq_eqb_refl {A} (eqb : A → A → bool) (l : list A) :
  Forall (λ x, eqb x x = true) l → seq_eqb eqb l l = true.
Proof. induction 1 as [|x l Hx _ IH]; [done|]. simpl. by rewrite Hx, IH. Qed.

Lemma seq_eqb_comm {A} (eqb : A → A → bool) (l m : list A) :
  Forall (λ x, ∀ y, eqb x y = eqb y x) l → seq_eqb eqb l m = seq_eqb eqb m l.
Proof.
  intros H. revert m. induction H as [|x l Hx _ IH]; intros [|y m]; try done.
  simpl. by rewrite Hx, IH.
Qed.

Lemma seq_eqb_length {A} (eqb : A → A → bool) (l m : list A) :
  seq_eqb eqb l m = true → length l = length m.
Proof.
  revert m. induction l as [|x l IH]; intros [|y m]; try done.
  simpl. intros [_ H]%andb_true_iff. f_equal. by apply IH.
Qed.

Lemma seq_eqb_app {A} (eqb : A → A → bool) (l1 l2 m1 m2 : list A) :
  length l1 = length m1 →
  seq_eqb eqb (l1 ++ l2) (m1 ++ m2) = seq_eqb eqb l1 m1 && seq_eqb eqb l2 m2.
Proof.
  revert m1. induction l1 as [|x l1 IH]; intros [|y m1] Hl; try done.
  simpl in *. rewrite IH by lia. by rewrite andb_assoc.
Qed.

Lemma py_eq_refl v : py_eq v v = true.
Proof.
  induction v as [ |b|z|q|s|l IH|l IH] using Value_deep_ind; simpl;
    try apply QArith_base.Qeq_bool_refl.
  - done.
  - by apply bool_decide_eq_true_2.
  - by apply seq_eqb_refl.
  - by apply seq_eqb_refl.
Qed.

Lemma py_eq_comm a b : py_eq a b = py_eq b a.
Proof.
  revert b.
  induction a as [ |x|x|x|x|l IH|l IH] using Value_deep_ind;
    intros [ |y|y|y|y|m|m]; simpl; try done; try apply Qeq_bool_comm.
  - apply bool_decide_ext. naive_solver.
  - by apply seq_eqb_comm.
  - by apply seq_eqb_comm.
Qed.

Lemma item_eq_refl i : item_eq i i = true.
Proof.
  destruct i; simpl; [apply py_eq_refl|done|by apply bool_decide_eq_true_2].
Qed.

Lemma item_eq_comm i j : item_eq i j = item_eq j i.
Proof.
  destruct i, j; simpl; try done; [apply py_eq_comm|].
  apply bool_decide_ext. naive_solver.
Qed.

Lemma key_eq_refl k : key_eq k k = true.
Proof.
  destruct k as [v|l]; simpl; [apply py_eq_refl|].
  apply seq_eqb_refl, Forall_forall. intros; apply item_eq_refl.
Qed.

Lemma key_eq_comm k k' : key_eq k k' = key_eq k' k.
Proof.
  destruct k, k'; simpl; try done; [apply py_eq_comm|].
  apply seq_eqb_comm, Forall_forall. intros; apply item_eq_comm.
Qed.

Example int_equals_float : py_eq (VInt 1) (VFloat (QArith_base.Qmake 1 1)) = true.
Proof. reflexivity. Qed.

Example key_untyped_bare :
  make_key [VInt 1] [] false = KBare (VInt 1) ∧
  make_key [VFloat (QArith_base.Qmake 1 1)] [] false
    = KSeq [KVal (VFloat (QArith_base.Qmake 1 1))].
Proof. done. Qed.

(** ** The lru_cache wrapper *)

Section LruFacts.

Context {W : Type}.
Implicit Types (st : @State W) (c : LruCache).

Lemma cache_get_unlink_length k es e :
  cache_get k es = Some e → S (length (unlink k es)) = length es.
Proof.
  unfold cache_get. induction es as [|x es IH]; [done|].
  simpl. destruct (key_eq x.1 k); [done|].
  intros H. simpl. f_equal. by apply IH.
Qed.

Lemma lru_wrapper_hit c uf args kwds st e :
  lru_maxsize c ≠ Some 0 →
  cache_get (make_key args kwds (lru_typed c)) (lru_entries c) = Some e →
  ∃ c', lru_wrapper c uf args kwds st = (Return e.2, c', st) ∧
        lru_maxsize c' = lru_maxsize c ∧ lru_typed c' = lru_typed c ∧
        lru_entries c' =
          match lru_maxsize c with
          | None => lru_entries c
          | Some _ =>
              unlink (make_key args kwds (lru_typed c)) (lru_entries c) ++ [e]
          end.
Proof.
  intros Hm Hg. unfold lru_wrapper. rewrite Hg.
  destruct c as [[[|n]|] t es]; simpl in *; [done|..]; by eexists.
Qed.

Lemma lru_wrapper_miss c (uf : _ → _ → State → Result Value * State) args kwds st :
  lru_maxsize c = Some 0 ∨
    cache_get (make_key args kwds (lru_typed c)) (lru_entries c) = None →
  ∃ c', lru_wrapper c uf args kwds st
        = ((uf args kwds st).1, c', (uf args kwds st).2) ∧
        lru_maxsize c' = lru_maxsize c ∧ lru_typed c' = lru_typed c ∧
        lru_entries c' =
          match (uf args kwds st).1, lru_maxsize c with
          | Raise _, _ | _, Some 0 => lru_entries c
          | Return result, None =>
              lru_entries c ++ [(make_key args kwds (lru_typed c), result)]
          | Return result, Some maxsize =>
              (if bool_decide (maxsize ≤ length (lru_entries c))
               then tail (lru_entries c) else lru_entries c)
                ++ [(make_key args kwds (lru_typed c), result)]
          end.
Proof.
  intros Hm. unfold lru_wrapper.
  destruct c as [[[|n]|] t es]; simpl in *.
  - destruct (uf args kwds st) as [[v|e] st']; by eexists.
  - destruct Hm as [?|Hm]; [done|]. rewrite Hm.
    destruct (uf args kwds st) as [[v|e] st']; by eexists.
  - destruct Hm as [?|Hm]; [done|]. rewrite Hm.
    destruct (uf args kwds st) as [[v|e] st']; by eexists.
Qed.

Lemma lru_wrapper_within N c uf args kwds st :
  within N c → within N (lru_wrapper c uf args kwds st).1.2.
Proof.
  intros [Hm Hl].
  destruct (cache_get (make_key args kwds (lru_typed c)) (lru_entries c))
    as [e|] eqn:Hg.
  - destruct (decide (N = 0)) as [->|HN].
    + destruct (lru_wrapper_miss c uf args kwds st) as (c' & -> & E1 & _ & E3);
        [by left|].
      split; simpl; [congruence|]. rewrite E3, Hm.
      by destruct (uf args kwds st).1.
    + destruct (lru_wrapper_hit c uf args kwds st e) as (c' & -> & E1 & _ & E3);
        [congruence|done|].
      split; simpl; [congruence|]. rewrite E3, Hm, length_app. simpl.
      apply cache_get_unlink_length in Hg. lia.
  - destruct (lru_wrapper_miss c uf args kwds st) as (c' & -> & E1 & _ & E3);
      [by right|].
    split; simpl; [congruence|]. rewrite E3, Hm.
    destruct (uf args kwds st).1 as [v|e]; [|done].
    destruct N as [|N]; [done|].
    rewrite length_app. simpl. case_bool_decide.
    + destruct (lru_entries c); simpl in *; lia.
    + lia.
Qed.

End LruFacts.

(** ** Cached methods *)

Section MethodFacts.

Context {W : Type}.
Implicit Types (st : @State W) (o : Instance) (m : @cached_method W).

Lemma cached_func_of_absent m o :
  o !! m_attrname m = None →
  cached_func_of m o =
    (SCache (lru_cache (m_maxsize m) (m_typed m)),
     <[m_attrname m := SCache (lru_cache (m_maxsize m) (m_typed m))]> o).
Proof. intros Ho. unfold cached_func_of. by rewrite !Ho. Qed.

Lemma cached_func_of_present m o s :
  o !! m_attrname m = Some s → cached_func_of m o = (s, o).
Proof. intros Ho. unfold cached_func_of. by rewrite Ho. Qed.

Lemma cached_func_of_cache m o :
  callable_slot m o → (cached_func_of m o).1 = SCache (cache_of m o).
Proof.
  intros Hs. unfold cache_of.
  destruct (o !! m_attrname m) as [[v|c]|] eqn:Ho.
  - by destruct (Hs v).
  - by rewrite (cached_func_of_present _ _ _ Ho).
  - by rewrite (cached_func_of_absent _ _ Ho).
Qed.

Lemma cached_func_of_insert m o s :
  <[m_attrname m := s]> (cached_func_of m o).2 = <[m_attrname m := s]> o.
Proof.
  destruct (o !! m_attrname m) as [s'|] eqn:Ho.
  - by rewrite (cached_func_of_present _ _ _ Ho).
  - rewrite (cached_func_of_absent _ _ Ho). simpl. apply insert_insert_eq.
Qed.

Lemma cached_func_of_other m o name :
  name ≠ m_attrname m → (cached_func_of m o).2 !! name = o !! name.
Proof.
  intros Hn. destruct (o !! m_attrname m) as [s'|] eqn:Ho.
  - by rewrite (cached_func_of_present _ _ _ Ho).
  - rewrite (cached_func_of_absent _ _ Ho). simpl. by rewrite lookup_insert_ne.
Qed.

Lemma cache_of_cached_func_of m o :
  cache_of m (cached_func_of m o).2 = cache_of m o.
Proof.
  destruct (o !! m_attrname m) as [s'|] eqn:Ho.
  - by rewrite (cached_func_of_present _ _ _ Ho).
  - rewrite (cached_func_of_absent _ _ Ho). unfold cache_of. simpl.
    by rewrite lookup_insert_eq, Ho.
Qed.

Lemma cache_of_insert m o c : cache_of m (<[m_attrname m := SCache c]> o) = c.
Proof. unfold cache_of. by rewrite lookup_insert_eq. Qed.

Lemma wrapper_bypass m o args kwargs st :
  negb (caching st) || m_disabled m = true →
  wrapper m o args kwargs st =
    ((invoke (m_func m) o args kwargs st).1, o,
     (invoke (m_func m) o args kwargs st).2).
Proof.
  intros Hb. unfold wrapper. rewrite Hb. by destruct (invoke _ _ _ _ _).
Qed.

Lemma wrapper_unhashable m o args kwargs st :
  negb (caching st) || m_disabled m = false →
  all_hashable args kwargs = false →
  wrapper m o args kwargs st =
    ((invoke (m_func m) (cached_func_of m o).2 args kwargs st).1,
     (cached_func_of m o).2,
     (invoke (m_func m) (cached_func_of m o).2 args kwargs st).2).
Proof.
  intros Hb Hh. unfold wrapper. rewrite Hb, Hh.
  destruct (cached_func_of m o) as [f cache]. simpl.
  by destruct (invoke _ _ _ _ _).
Qed.

Lemma wrapper_lru m o args kwargs st :
  caching st = true → m_disabled m = false →
  all_hashable args kwargs = true → callable_slot m o →
  wrapper m o args kwargs st =
    let '(r, c, st') :=
      lru_wrapper (cache_of m o) (invoke (m_func m) (cached_func_of m o).2)
        args kwargs st in
    (r, <[m_attrname m := SCache c]> o, st').
Proof.
  intros Hc Hd Hh Hs. unfold wrapper. rewrite Hc, Hd, Hh. simpl.
  pose proof (cached_func_of_cache m o Hs) as Hf.
  pose proof (cached_func_of_insert m o) as Hi.
  destruct (cached_func_of m o) as [f cache]. simpl in *. subst f.
  destruct (lru_wrapper _ _ _ _ _) as [[r c] st']. by rewrite Hi.
Qed.

(** C2 (as amended).  A call with an unhashable argument invokes the
    function once, directly, and returns or raises what the function does;
    no entry is stored and no other attribute of the instance changes.  Yet
    when caching is in force and the instance has no cache object for the
    method, the call first stores an empty one under the cache attribute;
    only when caching is off, or the method disabled, or the attribute
    already there, is the instance left as it was. *)
Theorem unhashable_call_uncached m o args kwargs st :
  all_hashable args kwargs = false →
  ∃ o',
    o' = (if caching st && negb (m_disabled m)
             && bool_decide (o !! m_attrname m = None)
          then <[m_attrname m := SCache (lru_cache (m_maxsize m) (m_typed m))]> o
          else o) ∧
    wrapper m o args kwargs st =
      ((invoke (m_func m) o' args kwargs st).1, o',
       (invoke (m_func m) o' args kwargs st).2) ∧
    invocations (fn_name (m_func m)) (wrapper m o args kwargs st).2
      = S (invocations (fn_name (m_func m)) st) ∧
    cached_entries m o' = cached_entries m o ∧
    (∀ name, name ≠ m_attrname m → o' !! name = o !! name).
Proof.
  intros Hh. eexists. split; [reflexivity|].
  destruct (negb (caching st) || m_disabled m) eqn:Hb.
  - assert (caching st && negb (m_disabled m) = false) as ->.
    { destruct (caching st), (m_disabled m); done. }
    simpl. rewrite wrapper_bypass by done.
    split_and!; [done|apply invocations_invoke|done..].
  - assert (caching st && negb (m_disabled m) = true) as ->.
    { destruct (caching st), (m_disabled m); done. }
    simpl. rewrite wrapper_unhashable by done.
    destruct (o !! m_attrname m) as [s|] eqn:Ho.
    + rewrite (cached_func_of_present _ _ _ Ho).
      rewrite bool_decide_eq_false_2 by done. simpl.
      split_and!; [done|apply invocations_invoke|done..].
    + rewrite (cached_func_of_absent _ _ Ho).
      rewrite bool_decide_eq_true_2 by done. simpl.
      split_and!; [done|apply invocations_invoke|..].
      * unfold cached_entries. rewrite cache_of_insert. unfold cache_of.
        by rewrite Ho.
      * intros name Hn. by rewrite lookup_insert_ne.
Qed.

End MethodFacts.

(** ** Failing computations *)

Section FailureFacts.

Context {W : Type}.
Implicit Types (st : @State W) (o : Instance).
Implicit Types (p : @cached_property W) (m : @cached_method W).

Lemma get_raise p o st e o1 st1 :
  get p o st = (Raise e, o1, st1) →
  invoke (func (base p)) o [] [] st = (Raise e, st1) ∧ o1 = o ∧
  (negb (caching st) || disabled p = false → o !! attrname p = None).
Proof.
  intros Hg. destruct (negb (caching st) || disabled p) eqn:Hb.
  - rewrite get_bypass in Hg by done.
    destruct (invoke _ _ _ _ _) as [[v|e'] st']; simpl in Hg; simplify_eq.
    by split_and!.
  - apply orb_false_elim in Hb as [Hc Hd]. apply negb_false_iff in Hc.
    destruct (o !! attrname p) as [s|] eqn:Ho.
    + by rewrite (get_hit _ _ _ s) in Hg.
    + rewrite get_miss in Hg by done.
      destruct (invoke _ _ _ _ _) as [[v|e'] st']; simplify_eq.
      by split_and!.
Qed.

Lemma get_invocations_after_raise p o st e o1 st1 :
  get p o st = (Raise e, o1, st1) →
  invocations (fn_name (func (base p))) (get p o1 st1).2
    = S (invocations (fn_name (func (base p))) st1).
Proof.
  intros Hg. pose proof (get_caching p o st) as Hk. rewrite Hg in Hk.
  apply get_raise in Hg as (_ & -> & Ho). simpl in Hk.
  destruct (negb (caching st) || disabled p) eqn:Hb.
  - rewrite get_bypass by (by rewrite Hk). apply invocations_invoke.
  - by apply get_cold_invocations, Ho.
Qed.

Lemma cached_None m o args kwargs :
  cached m o args kwargs = None →
  cache_get (make_key args kwargs (lru_typed (cache_of m o)))
    (lru_entries (cache_of m o)) = None.
Proof. unfold cached, cached_entries. by intros ?%fmap_None. Qed.

Lemma insert_callable m o c : callable_slot m (<[m_attrname m := SCache c]> o).
Proof. intros v. by rewrite lookup_insert_eq. Qed.

Lemma wrapper_miss m o args kwargs st :
  caching st = true → m_disabled m = false →
  all_hashable args kwargs = true → callable_slot m o →
  cached m o args kwargs = None →
  ∃ c',
    wrapper m o args kwargs st =
      ((invoke (m_func m) (cached_func_of m o).2 args kwargs st).1,
       <[m_attrname m := SCache c']> o,
       (invoke (m_func m) (cached_func_of m o).2 args kwargs st).2) ∧
    lru_maxsize c' = lru_maxsize (cache_of m o) ∧
    lru_typed c' = lru_typed (cache_of m o) ∧
    lru_entries c' =
      match (invoke (m_func m) (cached_func_of m o).2 args kwargs st).1,
            lru_maxsize (cache_of m o) with
      | Raise _, _ | _, Some 0 => cached_entries m o
      | Return result, None =>
          cached_entries m o
            ++ [(make_key args kwargs (lru_typed (cache_of m o)), result)]
      | Return result, Some maxsize =>
          (if bool_decide (maxsize ≤ length (cached_entries m o))
           then tail (cached_entries m o) else cached_entries m o)
            ++ [(make_key args kwargs (lru_typed (cache_of m o)), result)]
      end.
Proof.
  intros Hc Hd Hh Hs Hn. apply cached_None in Hn.
  rewrite wrapper_lru by done.
  destruct (lru_wrapper_miss (cache_of m o)
              (invoke (m_func m) (cached_func_of m o).2) args kwargs st)
    as (c' & -> & E1 & E2 & E3); [by right|].
  by exists c'.
Qed.

(** C3.  When the function raises during the computation for a miss, the
    caller gets that very exception and nothing is stored: the instance of
    a property is returned as it was, its slot empty, and the keyed cache
    of a method keeps the entries it had, none of them for the key of the
    call; the next access with the same arguments invokes the function
    again. *)
Theorem failed_computation_not_cached :
  (∀ p o st e,
     caching st = true → disabled p = false → o !! attrname p = None →
     (fn_body (func (base p)) (world st) o [] []).1 = Raise e →
     ∃ st1,
       get p o st = (Raise e, o, st1) ∧
       invocations (fn_name (func (base p))) (get p o st1).2
         = S (invocations (fn_name (func (base p))) st1)) ∧
  (∀ m o args kwargs st e,
     caching st = true → m_disabled m = false →
     all_hashable args kwargs = true → callable_slot m o →
     cached m o args kwargs = None →
     (fn_body (m_func m) (world st) (cached_func_of m o).2 args kwargs).1
       = Raise e →
     ∃ o1 st1,
       wrapper m o args kwargs st = (Raise e, o1, st1) ∧
       cached_entries m o1 = cached_entries m o ∧
       cached m o1 args kwargs = None ∧
       invocations (fn_name (m_func m)) (wrapper m o1 args kwargs st1).2
         = S (invocations (fn_name (m_func m)) st1)).
Proof.
  split.
  - intros p o st e Hc Hd Ho Hf.
    rewrite <- invoke_result in Hf.
    exists (invoke (func (base p)) o [] [] st).2. split.
    + rewrite get_miss by done.
      destruct (invoke _ _ _ _ _) as [r st']. simpl in *. by subst r.
    + by apply get_cold_invocations.
  - intros m o args kwargs st e Hc Hd Hh Hs Hn Hf.
    rewrite <- invoke_result in Hf.
    destruct (wrapper_miss m o args kwargs st) as (c' & Hw & E1 & E2 & E3);
      [done..|].
    rewrite Hf in Hw, E3.
    eexists _, _. split; [exact Hw|].
    assert (cached_entries m (<[m_attrname m := SCache c']> o)
              = cached_entries m o) as He.
    { unfold cached_entries at 1. by rewrite cache_of_insert. }
    assert (cached m (<[m_attrname m := SCache c']> o) args kwargs = None)
      as Hn'.
    { unfold cached. rewrite He, cache_of_insert, E2. exact Hn. }
    split_and!; [done..|].
    destruct (wrapper_miss m (<[m_attrname m := SCache c']> o) args kwargs
                (invoke (m_func m) (cached_func_of m o).2 args kwargs st).2)
      as (c'' & -> & _); [by rewrite invoke_caching|done|done| |done|].
    { apply insert_callable. }
    apply invocations_invoke.
Qed.

End FailureFacts.

(** ** The order of the keys in a cache *)

Section KeyOrderFacts.

Context {W : Type}.
Implicit Types (st : @State W) (o : Instance) (m : @cached_method W).

Lemma cache_get_None_has_key k (es : list (Key * Value)) :
  cache_get k es = None → has_key k es.*1 = false.
Proof.
  unfold cache_get, has_key. induction es as [|e es IH]; [done|].
  simpl. destruct (key_eq e.1 k); [done|]. exact IH.
Qed.

Lemma cache_get_Some_has_key k (es : list (Key * Value)) e :
  cache_get k es = Some e →
  has_key k es.*1 = true ∧ (unlink k es ++ [e]).*1 = move_to_end k es.*1.
Proof.
  unfold cache_get, has_key. induction es as [|x es IH]; [done|].
  cbn. destruct (key_eq x.1 k) eqn:E.
  - intros [= ->]. split; [done|]. by rewrite fmap_app.
  - intros H. destruct (IH H) as [H1 H2]. split; [done|].
    cbn. f_equal. exact H2.
Qed.

Lemma cached_has_key m o args kwargs :
  has_key (make_key args kwargs (lru_typed (cache_of m o)))
    (cached_entries m o).*1 = bool_decide (is_Some (cached m o args kwargs)).
Proof.
  unfold cached.
  destruct (cache_get _ (cached_entries m o)) as [e|] eqn:Hg.
  - apply cache_get_Some_has_key in Hg as [-> _].
    symmetry. apply bool_decide_eq_true_2. by eexists.
  - apply cache_get_None_has_key in Hg as ->.
    symmetry. apply bool_decide_eq_false_2. by intros [? ?].
Qed.

Lemma wrapper_hit m o args kwargs st e :
  caching st = true → m_disabled m = false →
  all_hashable args kwargs = true → callable_slot m o →
  lru_maxsize (cache_of m o) ≠ Some 0 →
  cache_get (make_key args kwargs (lru_typed (cache_of m o)))
    (cached_entries m o) = Some e →
  ∃ c',
    wrapper m o args kwargs st
      = (Return e.2, <[m_attrname m := SCache c']> o, st) ∧
    lru_maxsize c' = lru_maxsize (cache_of m o) ∧
    lru_typed c' = lru_typed (cache_of m o) ∧
    lru_entries c' =
      match lru_maxsize (cache_of m o) with
      | None => cached_entries m o
      | Some _ =>
          unlink (make_key args kwargs (lru_typed (cache_of m o)))
            (cached_entries m o) ++ [e]
      end.
Proof.
  intros Hc Hd Hh Hs Hm Hg. rewrite wrapper_lru by done.
  destruct (lru_wrapper_hit (cache_of m o)
              (invoke (m_func m) (cached_func_of m o).2) args kwargs st e)
    as (c' & -> & E1 & E2 & E3); [done..|].
  by exists c'.
Qed.

Lemma total_invoke (f : @PyFunction W) o args kwargs st :
  total f → ∃ v, (invoke f o args kwargs st).1 = Return v.
Proof.
  intros Ht. rewrite invoke_result.
  destruct (Ht (world st) o args kwargs) as (v & w' & ->). by exists v.
Qed.

(** One call in terms of the keys: what it does to their order, and
    whether it invokes the function. *)
Lemma wrapper_keys m o args kwargs st :
  caching st = true → m_disabled m = false →
  all_hashable args kwargs = true → callable_slot m o →
  total (m_func m) →
  ∃ r o' st',
    wrapper m o args kwargs st = (r, o', st') ∧
    caching st' = true ∧ callable_slot m o' ∧
    lru_maxsize (cache_of m o') = lru_maxsize (cache_of m o) ∧
    lru_typed (cache_of m o') = lru_typed (cache_of m o) ∧
    (cached_entries m o').*1 =
      keys_step (lru_maxsize (cache_of m o))
        (make_key args kwargs (lru_typed (cache_of m o)))
        (cached_entries m o).*1 ∧
    invocations (fn_name (m_func m)) st' =
      invocations (fn_name (m_func m)) st +
        (if is_miss (lru_maxsize (cache_of m o))
              (make_key args kwargs (lru_typed (cache_of m o)))
              (cached_entries m o).*1
         then 1 else 0).
Proof.
  intros Hc Hd Hh Hs Ht.
  set (key := make_key args kwargs (lru_typed (cache_of m o))).
  destruct (total_invoke (m_func m) (cached_func_of m o).2 args kwargs st Ht)
    as [v Hv].
  pose proof (invocations_invoke (m_func m) (cached_func_of m o).2 args kwargs st)
    as Hi.
  pose proof (invoke_caching (m_func m) (cached_func_of m o).2 args kwargs st)
    as Hk.
  destruct (cache_get key (cached_entries m o)) as [e|] eqn:Hg.
  - destruct (decide (lru_maxsize (cache_of m o) = Some 0)) as [H0|H0].
    + rewrite wrapper_lru by done.
      destruct (lru_wrapper_miss (cache_of m o)
                  (invoke (m_func m) (cached_func_of m o).2) args kwargs st)
        as (c' & -> & E1 & E2 & E3); [by left|].
      eexists _, _, _. split; [reflexivity|].
      rewrite Hv, H0 in E3.
      unfold cached_entries at 1. rewrite !cache_of_insert.
      split_and!; [congruence|apply insert_callable|done|done|..].
      * by rewrite E3, H0.
      * rewrite H0. simpl. lia.
    + destruct (wrapper_hit m o args kwargs st e) as (c' & -> & E1 & E2 & E3);
        [done..|].
      eexists _, _, _. split; [reflexivity|].
      unfold cached_entries at 1. rewrite !cache_of_insert.
      apply cache_get_Some_has_key in Hg as [Hh1 Hh2].
      split_and!; [done|apply insert_callable|done|done|..].
      * rewrite E3. unfold keys_step. fold key. rewrite Hh1.
        destruct (lru_maxsize (cache_of m o)) as [[|n]|]; done.
      * unfold is_miss. fold key. rewrite Hh1.
        destruct (lru_maxsize (cache_of m o)) as [[|n]|]; [done|simpl; lia..].
  - destruct (wrapper_miss m o args kwargs st) as (c' & -> & E1 & E2 & E3);
      [done..| |].
    { unfold cached. fold key. by rewrite Hg. }
    eexists _, _, _. split; [reflexivity|].
    rewrite Hv in E3. fold key in E3.
    unfold cached_entries at 1. rewrite !cache_of_insert.
    apply cache_get_None_has_key in Hg.
    split_and!; [congruence|apply insert_callable|done|done|..].
    + rewrite E3. unfold keys_step. fold key. rewrite Hg.
      destruct (lru_maxsize (cache_of m o)) as [[|n]|]; [done|..].
      * rewrite fmap_app, length_fmap. simpl.
        case_bool_decide; [|done]. f_equal.
        by destruct (cached_entries m o).
      * by rewrite fmap_app.
    + unfold is_miss. fold key. rewrite Hg, Hi.
      destruct (lru_maxsize (cache_of m o)) as [[|n]|]; simpl; lia.
Qed.

(** A run of calls with hashable arguments follows the key order. *)
Lemma call_all_keys m argss o st :
  caching st = true → m_disabled m = false → callable_slot m o →
  total (m_func m) →
  Forall (λ c, all_hashable c.1 c.2 = true) argss →
  (cached_entries m (call_all m argss o st).1).*1 =
    keys_after (lru_maxsize (cache_of m o)) (lru_typed (cache_of m o)) argss
      (cached_entries m o).*1 ∧
  invocations (fn_name (m_func m)) (call_all m argss o st).2 =
    invocations (fn_name (m_func m)) st +
      misses (lru_maxsize (cache_of m o)) (lru_typed (cache_of m o)) argss
        (cached_entries m o).*1 ∧
  lru_typed (cache_of m (call_all m argss o st).1) = lru_typed (cache_of m o).
Proof.
  intros Hc Hd Hs Ht Hh. revert o st Hc Hs.
  induction Hh as [|[args kwargs] argss Hh _ IH]; intros o st Hc Hs.
  - simpl. split_and!; [done|lia|done].
  - simpl in Hh.
    destruct (wrapper_keys m o args kwargs st)
      as (r & o' & st' & Hw & Hc' & Hs' & E1 & E2 & E3 & E4); [done..|].
    simpl. rewrite Hw.
    destruct (IH o' st' Hc' Hs') as (IH1 & IH2 & IH3).
    rewrite IH1, IH2, IH3, E1, E2, E3, E4. split_and!; [done|lia|done].
Qed.

Lemma fresh_cache_of m o :
  o !! m_attrname m = None →
  cache_of m o = lru_cache (m_maxsize m) (m_typed m).
Proof. intros Ho. unfold cache_of. by rewrite Ho. Qed.

Lemma wrapper_within N m o args kwargs st :
  within N (cache_of m o) →
  within N (cache_of m (wrapper m o args kwargs st).1.2).
Proof.
  intros Hw.
  destruct (negb (caching st) || m_disabled m) eqn:Hb.
  { by rewrite wrapper_bypass. }
  destruct (all_hashable args kwargs) eqn:Hh.
  2:{ rewrite wrapper_unhashable by done. simpl.
      by rewrite cache_of_cached_func_of. }
  apply orb_false_elim in Hb as [Hc Hd]. apply negb_false_iff in Hc.
  destruct (o !! m_attrname m) as [[v|c]|] eqn:Ho.
  - unfold wrapper. rewrite Hc, Hd, Hh, (cached_func_of_present _ _ _ Ho).
    done.
  - rewrite wrapper_lru; [|done..|intros v; by rewrite Ho].
    pose proof (lru_wrapper_within N (cache_of m o)
                  (invoke (m_func m) (cached_func_of m o).2) args kwargs st Hw)
      as Hl.
    destruct (lru_wrapper _ _ _ _ _) as [[r c'] st']. simpl in *.
    by rewrite cache_of_insert.
  - rewrite wrapper_lru; [|done..|intros v; by rewrite Ho].
    pose proof (lru_wrapper_within N (cache_of m o)
                  (invoke (m_func m) (cached_func_of m o).2) args kwargs st Hw)
      as Hl.
    destruct (lru_wrapper _ _ _ _ _) as [[r c'] st']. simpl in *.
    by rewrite cache_of_insert.
Qed.

Lemma call_all_within N m argss o st :
  within N (cache_of m o) →
  within N (cache_of m (call_all m argss o st).1).
Proof.
  revert o st. induction argss as [|[args kwargs] argss IH]; intros o st Hw;
    [done|].
  simpl. pose proof (wrapper_within N m o args kwargs st Hw) as Hw'.
  destruct (wrapper m o args kwargs st) as [[r o'] st']. by apply IH.
Qed.

End KeyOrderFacts.

(** ** Keys with and without types *)

Lemma vals_eqb (a1 a2 : list Value) :
  seq_eqb item_eq (KVal <$> a1) (KVal <$> a2) = seq_eqb py_eq a1 a2.
Proof.
  revert a2. induction a1 as [|x a1 IH]; intros [|y a2]; try done.
  simpl. by rewrite IH.
Qed.

Lemma types_eqb {A} (f : A → PyType) (a1 a2 : list A) :
  seq_eqb item_eq ((λ v, KType (f v)) <$> a1) ((λ v, KType (f v)) <$> a2) = true →
  f <$> a1 = f <$> a2.
Proof.
  revert a2. induction a1 as [|x a1 IH]; intros [|y a2]; try done.
  simpl. intros [Hx H]%andb_true_iff.
  apply bool_decide_eq_true_1 in Hx. rewrite Hx. f_equal. by apply IH.
Qed.

Lemma typed_keys_differ (a1 a2 : list Value) kw :
  seq_eqb py_eq a1 a2 = true → type_of <$> a1 ≠ type_of <$> a2 →
  key_eq (make_key a1 kw true) (make_key a2 kw true) = false.
Proof.
  intros He Ht. pose proof (seq_eqb_length _ _ _ He) as Hl.
  unfold make_key, key_eq.
  rewrite seq_eqb_app.
  2:{ destruct kw; rewrite ?length_app, !length_fmap; simpl; lia. }
  rewrite seq_eqb_app by (by rewrite !length_fmap).
  destruct (seq_eqb item_eq ((λ v, KType (type_of v)) <$> a1) _) eqn:E.
  - by apply types_eqb in E.
  - by rewrite andb_false_r.
Qed.

Lemma untyped_keys_equal (a1 a2 : list Value) kw :
  seq_eqb py_eq a1 a2 = true →
  kw ≠ [] ∨ length a1 ≠ 1 ∨ fasttype <$> a1 = fasttype <$> a2 →
  key_eq (make_key a1 kw false) (make_key a2 kw false) = true.
Proof.
  intros He Hs. pose proof (seq_eqb_length _ _ _ He) as Hl.
  assert (seq_eqb item_eq (KMark :: kwd_items kw) (KMark :: kwd_items kw) = true)
    as Hkw.
  { apply seq_eqb_refl, Forall_forall. intros; apply item_eq_refl. }
  destruct kw as [|kv kw].
  - destruct a1 as [|x [|x' a1]], a2 as [|y [|y' a2]]; try done.
    + simpl in He. rewrite andb_true_r in He.
      destruct Hs as [?|[?|[= Hf]]]; [done..|].
      unfold make_key. simpl. rewrite <- Hf.
      destruct (fasttype x); simpl; by rewrite He.
    + unfold make_key, key_eq.
      change (seq_eqb item_eq (KVal <$> x :: x' :: a1) (KVal <$> y :: y' :: a2) = true).
      by rewrite vals_eqb.
  - assert (∀ a : list Value,
      make_key a (kv :: kw) false = KSeq ((KVal <$> a) ++ KMark :: kwd_items (kv :: kw)))
      as Hk.
    { intros [|x [|x' a]]; done. }
    rewrite !Hk. unfold key_eq.
    rewrite seq_eqb_app by (by rewrite !length_fmap).
    by rewrite vals_eqb, He, Hkw.
Qed.

Lemma untyped_single_keys_differ (x y : Value) :
  fasttype x ≠ fasttype y →
  key_eq (make_key [x] [] false) (make_key [y] [] false) = false.
Proof. unfold make_key. simpl. by destruct (fasttype x), (fasttype y). Qed.

(** Two calls with the same keyword names in the same order and equal
    keyword values. *)
Lemma kwd_items_eqb (k1 k2 : list (string * Value)) :
  k1.*1 = k2.*1 → seq_eqb py_eq k1.*2 k2.*2 = true →
  seq_eqb item_eq (kwd_items k1) (kwd_items k2) = true.
Proof.
  revert k2. induction k1 as [|[n1 v1] k1 IH]; intros [|[n2 v2] k2]; try done.
  simpl. intros [= -> Hn] [Hv H]%andb_true_iff.
  rewrite Hv, bool_decide_eq_true_2 by done. simpl. by apply IH.
Qed.

Lemma marked_eqb (k1 k2 : list (string * Value)) :
  k1.*1 = k2.*1 → seq_eqb py_eq k1.*2 k2.*2 = true →
  seq_eqb item_eq match k1 with [] => [] | _ => KMark :: kwd_items k1 end
                  match k2 with [] => [] | _ => KMark :: kwd_items k2 end = true.
Proof.
  intros Hn Hv. pose proof (kwd_items_eqb k1 k2 Hn Hv) as H.
  destruct k1, k2; try done.
Qed.

Lemma make_key_typed (a : list Value) (k : list (string * Value)) :
  make_key a k true =
    KSeq (((KVal <$> a) ++ match k with [] => [] | _ => KMark :: kwd_items k end)
          ++ ((λ v, KType (type_of v)) <$> a)
          ++ ((λ kv, KType (type_of kv.2)) <$> k)).
Proof.
  unfold make_key. destruct k; [|done].
  by rewrite (app_nil_r (KVal <$> a)).
Qed.

Lemma typed_keys_differ_kw (a1 a2 : list Value) k1 k2 :
  seq_eqb py_eq a1 a2 = true →
  k1.*1 = k2.*1 → seq_eqb py_eq k1.*2 k2.*2 = true →
  type_of <$> (a1 ++ k1.*2) ≠ type_of <$> (a2 ++ k2.*2) →
  key_eq (make_key a1 k1 true) (make_key a2 k2 true) = false.
Proof.
  intros He Hn Hv Ht. pose proof (seq_eqb_length _ _ _ He) as Hl.
  pose proof (seq_eqb_length _ _ _ (marked_eqb k1 k2 Hn Hv)) as Hlk.
  rewrite !make_key_typed. unfold key_eq.
  rewrite seq_eqb_app by (rewrite !length_app, !length_fmap; lia).
  rewrite (seq_eqb_app item_eq ((λ v, KType (type_of v)) <$> a1))
    by (by rewrite !length_fmap).
  destruct (seq_eqb item_eq ((λ v, KType (type_of v)) <$> a1) _) eqn:E1;
    [|by rewrite andb_false_r].
  destruct (seq_eqb item_eq ((λ kv, KType (type_of kv.2)) <$> k1) _) eqn:E2;
    [|by rewrite !andb_false_r].
  apply types_eqb in E1. apply (types_eqb (λ kv, type_of kv.2)) in E2.
  destruct Ht. rewrite !fmap_app, E1. f_equal.
  by rewrite <- !list_fmap_compose.
Qed.

Lemma untyped_keys_equal_kw (a1 a2 : list Value) k1 k2 :
  seq_eqb py_eq a1 a2 = true →
  k1.*1 = k2.*1 → seq_eqb py_eq k1.*2 k2.*2 = true →
  k1 ≠ [] ∨ length a1 ≠ 1 ∨ fasttype <$> a1 = fasttype <$> a2 →
  key_eq (make_key a1 k1 false) (make_key a2 k2 false) = true.
Proof.
  intros He Hn Hv Hs. pose proof (seq_eqb_length _ _ _ He) as Hl.
  pose proof (kwd_items_eqb k1 k2 Hn Hv) as Hkw.
  destruct k1 as [|kv1 k1], k2 as [|kv2 k2]; try done.
  - by apply untyped_keys_equal.
  - assert (∀ (a : list Value) kv k,
      make_key a (kv :: k) false = KSeq ((KVal <$> a) ++ KMark :: kwd_items (kv :: k)))
      as Hk.
    { intros [|x [|x' a]]; done. }
    rewrite !Hk. unfold key_eq.
    rewrite seq_eqb_app by (by rewrite !length_fmap).
    rewrite vals_eqb, He. simpl in Hkw |- *. exact Hkw.
Qed.

(** ** The most recently used keys *)

Lemma keys_step_evicts (N : nat) (k : Key) (ks : list Key) :
  0 < N → length ks = N → has_key k ks = false →
  keys_step (Some N) k ks = tail ks ++ [k].
Proof.
  intros HN Hl Hk. unfold keys_step. rewrite Hk.
  destruct N as [|N]; [lia|]. by rewrite bool_decide_eq_true_2 by lia.
Qed.

Lemma keys_step_touches (N : nat) (k : Key) (ks : list Key) :
  0 < N → has_key k ks = true → keys_step (Some N) k ks = move_to_end k ks.
Proof.
  intros HN Hk. unfold keys_step. rewrite Hk. destruct N as [|N]; [lia|done].
Qed.

Lemma keys_step_adds (N : nat) (k : Key) (ks : list Key) :
  length ks < N → has_key k ks = false → keys_step (Some N) k ks = ks ++ [k].
Proof.
  intros Hl Hk. unfold keys_step. rewrite Hk.
  destruct N as [|N]; [lia|]. by rewrite bool_decide_eq_false_2 by lia.
Qed.

Lemma seq_eqb_trans {A} (eqb : A → A → bool) (l m n : list A) :
  Forall (λ x, ∀ y z, eqb x y = true → eqb y z = true → eqb x z = true) l →
  seq_eqb eqb l m = true → seq_eqb eqb m n = true → seq_eqb eqb l n = true.
Proof.
  intros H. revert m n.
  induction H as [|x l Hx _ IH]; intros [|y m] [|z n]; try done.
  simpl. intros [H1 H2]%andb_true_iff [H3 H4]%andb_true_iff.
  rewrite (Hx _ _ H1 H3). simpl. by eapply IH.
Qed.

Lemma py_eq_trans a b c :
  py_eq a b = true → py_eq b c = true → py_eq a c = true.
Proof.
  revert b c.
  induction a as [ |x|x|x|x|l IH|l IH] using Value_deep_ind;
    intros [ |y|y|y|y|m|m] [ |z|z|z|z|n|n]; simpl; try done;
    try (by apply QArith_base.Qeq_bool_trans).
  - intros ->%bool_decide_eq_true_1 ->%bool_decide_eq_true_1.
    by apply bool_decide_eq_true_2.
  - by apply seq_eqb_trans.
  - by apply seq_eqb_trans.
Qed.

Lemma item_eq_trans a b c :
  item_eq a b = true → item_eq b c = true → item_eq a c = true.
Proof.
  destruct a, b, c; simpl; try done; [apply py_eq_trans|].
  intros ->%bool_decide_eq_true_1 ->%bool_decide_eq_true_1.
  by apply bool_decide_eq_true_2.
Qed.

Lemma key_eq_trans a b c :
  key_eq a b = true → key_eq b c = true → key_eq a c = true.
Proof.
  destruct a, b, c; simpl; try done; [apply py_eq_trans|].
  apply seq_eqb_trans, Forall_forall. intros ? _ ? ?. apply item_eq_trans.
Qed.

Lemma keq_sym a b : keq a b → keq b a.
Proof. unfold keq. by rewrite key_eq_comm. Qed.

Lemma keq_trans a b c : keq a b → keq b c → keq a c.
Proof. apply key_eq_trans. Qed.

Lemma key_eq_false_l a b k : keq a b → key_eq a k = false → key_eq b k = false.
Proof.
  intros Hab Hak. destruct (key_eq b k) eqn:E; [|done].
  by rewrite (key_eq_trans _ _ _ Hab E) in Hak.
Qed.

Lemma key_eq_true_l a b k : keq a b → key_eq a k = true → key_eq b k = true.
Proof. intros Hab Hak. eapply key_eq_trans; [by apply keq_sym|done]. Qed.

Lemma filter_none k (w : list Key) :
  has_key k w = false → filter (λ k', key_eq k' k = false) w = w.
Proof.
  unfold has_key. induction w as [|b w IH]; [done|].
  simpl. intros [Hb Hw]%orb_false_elim.
  rewrite filter_cons_True by done. f_equal. by apply IH.
Qed.

Lemma has_key_false_forall k (w : list Key) :
  has_key k w = false ↔ Forall (λ b, key_eq b k = false) w.
Proof.
  unfold has_key. induction w as [|b w IH]; [by split|].
  simpl. rewrite orb_false_iff, Forall_cons, IH. done.
Qed.

Lemma has_key_related k (ks w : list Key) :
  Forall2 keq ks w → has_key k ks = has_key k w.
Proof.
  unfold has_key. induction 1 as [|a b ks w Hab _ IH]; [done|].
  simpl. rewrite IH. f_equal.
  destruct (key_eq a k) eqn:E.
  - symmetry. by eapply key_eq_true_l.
  - symmetry. by eapply key_eq_false_l.
Qed.

Lemma distinct_app_inv (l1 l2 : list Key) :
  distinct (l1 ++ l2) →
  distinct l1 ∧ distinct l2 ∧
  Forall (λ a, Forall (λ b, key_eq a b = false) l2) l1.
Proof.
  induction l1 as [|a l1 IH];
    [simpl; intros ?; split_and!; [done|done|constructor]|].
  simpl. intros [Ha Hd]. apply Forall_app in Ha as [Ha1 Ha2].
  destruct (IH Hd) as (H1 & H2 & H3). split_and!; try done.
  by constructor.
Qed.

Lemma distinct_snoc (l : list Key) k :
  distinct l → Forall (λ a, key_eq a k = false) l → distinct (l ++ [k]).
Proof.
  induction l as [|a l IH]; [by split|].
  simpl. intros [Ha Hd] [Hak Hl]%Forall_cons. split; [|by apply IH].
  apply Forall_app. split; [done|by constructor].
Qed.

Lemma distinct_filter (P : Key → Prop) `{∀ x, Decision (P x)} (l : list Key) :
  distinct l → distinct (filter P l).
Proof.
  induction l as [|a l IH]; [done|].
  simpl. intros [Ha Hd]. destruct (decide (P a)).
  - rewrite filter_cons_True by done. split; [|by apply IH].
    apply Forall_forall. intros x [_ Hx]%list_elem_of_filter.
    rewrite Forall_forall in Ha. by apply Ha.
  - rewrite filter_cons_False by done. by apply IH.
Qed.

Lemma distinct_touch k r : distinct r → distinct (touch k r).
Proof.
  intros Hd. unfold touch. apply distinct_snoc; [by apply distinct_filter|].
  apply Forall_forall. by intros a [Ha _]%list_elem_of_filter.
Qed.

(** A hit moves the key: the related key is the only one the filter drops. *)
Lemma hit_shape k (ks w : list Key) :
  Forall2 keq ks w → distinct w → has_key k ks = true →
  Forall2 keq (move_to_end k ks) (filter (λ k', key_eq k' k = false) w ++ [k]).
Proof.
  induction 1 as [|a b ks w Hab Hrel IH]; [done|].
  simpl. intros [Hb Hd] Hk. destruct (key_eq a k) eqn:Ea.
  - pose proof (key_eq_true_l _ _ _ Hab Ea) as Eb.
    rewrite filter_cons_False by (by rewrite Eb).
    rewrite filter_none.
    + apply Forall2_app; [done|]. by constructor.
    + apply has_key_false_forall. eapply Forall_impl; [exact Hb|].
      intros x Hx. simpl in Hx. destruct (key_eq x k) eqn:Ex; [|done].
      assert (key_eq b x = true); [|congruence].
      eapply key_eq_trans; [exact Eb|]. by rewrite key_eq_comm.
  - pose proof (key_eq_false_l _ _ _ Hab Ea) as Eb.
    rewrite filter_cons_True by done. simpl.
    constructor; [done|]. apply IH; [done|]. exact Hk.
Qed.

Lemma move_to_end_length k (ks : list Key) :
  length (move_to_end k ks) = length ks.
Proof.
  induction ks as [|a ks IH]; [done|]. simpl.
  destruct (key_eq a k); simpl; [|by rewrite IH].
  rewrite length_app. simpl. lia.
Qed.

Lemma filter_prefix_hit k (pre w : list Key) :
  distinct (pre ++ w) → has_key k w = true →
  filter (λ k', key_eq k' k = false) pre = pre.
Proof.
  intros (_ & _ & Hpw)%distinct_app_inv Hk.
  apply filter_none, has_key_false_forall.
  eapply Forall_impl; [exact Hpw|]. intros a Ha. simpl in Ha.
  destruct (key_eq a k) eqn:Ea; [|done]. exfalso.
  unfold has_key in Hk. apply existsb_exists in Hk as (b & Hb & Ebk).
  rewrite <- list_elem_of_In in Hb.
  rewrite Forall_forall in Ha. specialize (Ha b Hb).
  assert (key_eq a b = true); [|congruence].
  eapply key_eq_trans; [exact Ea|]. by rewrite key_eq_comm.
Qed.

Lemma step_recent_split N k (ks pre w : list Key) :
  0 < N → distinct (pre ++ w) →
  length pre = length (pre ++ w) - N →
  Forall2 keq ks w →
  Forall2 keq (keys_step (Some N) k ks) (most_recent N (touch k (pre ++ w))).
Proof.
  intros HN Hd Hshape Hrel. rewrite length_app in Hshape.
  pose proof (Forall2_length _ _ _ Hrel) as Hlk.
  unfold most_recent, touch. rewrite filter_app, <- app_assoc.
  destruct (has_key k ks) eqn:Hk.
  - (* the key is there *)
    rewrite keys_step_touches by done.
    rewrite (filter_prefix_hit k pre w Hd)
      by (by rewrite <- (has_key_related k ks w Hrel)).
    apply distinct_app_inv in Hd as (_ & Hdw & _).
    pose proof (hit_shape k ks w Hrel Hdw Hk) as Hs.
    pose proof (Forall2_length _ _ _ Hs) as Hl.
    rewrite move_to_end_length in Hl.
    rewrite drop_app_length'; [done|]. rewrite length_app. lia.
  - (* a new key *)
    rewrite (has_key_related k ks w Hrel) in Hk.
    rewrite (filter_none k w Hk).
    unfold keys_step. rewrite (has_key_related k ks w Hrel), Hk.
    destruct N as [|N]; [lia|].
    set (fp := filter (λ k', key_eq k' k = false) pre).
    case_bool_decide as Hfull.
    + (* at capacity: the least recently used key goes *)
      assert (length w = S N) as Hw by lia.
      replace (length (fp ++ w ++ [k]) - S N) with (length fp + 1)
        by (rewrite !length_app; simpl; lia).
      rewrite drop_app_add.
      destruct Hrel as [|a b ks' w' Hab Hrel']; [done|].
      simpl. rewrite drop_0. apply Forall2_app; [done|].
      constructor; [apply key_eq_refl|done].
    + assert (pre = []) as -> by (apply nil_length_inv; lia).
      subst fp. rewrite filter_nil. simpl.
      replace (length (w ++ [k]) - S N) with 0
        by (rewrite length_app; simpl; lia).
      rewrite drop_0.
      apply Forall2_app; [done|]. constructor; [apply key_eq_refl|done].
Qed.

Lemma step_recent N k (ks r : list Key) :
  0 < N → distinct r →
  Forall2 keq ks (most_recent N r) →
  Forall2 keq (keys_step (Some N) k ks) (most_recent N (touch k r)).
Proof.
  intros HN Hd Hrel. unfold most_recent in Hrel.
  set (n := length r - N) in *.
  assert (r = take n r ++ drop n r) as Hr by (symmetry; apply take_drop).
  rewrite Hr in Hd. rewrite Hr.
  apply step_recent_split; [done|done| |done].
  rewrite take_drop, length_take. unfold n. lia.
Qed.

Lemma recency_snoc history k : recency (history ++ [k]) = touch k (recency history).
Proof. unfold recency. by rewrite foldl_app. Qed.

Lemma recency_distinct history : distinct (recency history).
Proof.
  induction history as [|k history IH] using rev_ind; [done|].
  rewrite recency_snoc. by apply distinct_touch.
Qed.

(** The keys of a bounded cache are, up to equality of keys, the [N] most
    recently used keys of the history, the least recently used first. *)
Lemma keys_most_recent N (history : list Key) :
  0 < N →
  Forall2 keq (foldl (λ ks k, keys_step (Some N) k ks) [] history)
    (most_recent N (recency history)).
Proof.
  intros HN. induction history as [|k history IH] using rev_ind; [constructor|].
  rewrite foldl_app, recency_snoc. simpl.
  apply step_recent; [done|apply recency_distinct|done].
Qed.

Lemma keys_after_foldl maxsize typed argss ks :
  keys_after maxsize typed argss ks =
    foldl (λ ks k, keys_step maxsize k ks) ks
      ((λ c, make_key c.1 c.2 typed) <$> argss).
Proof.
  revert ks. induction argss as [|[a k] argss IH]; intros ks; [done|].
  simpl. by rewrite IH.
Qed.

(** ** Runs of calls on an instance without a cache *)

Section RunFacts.

Context {W : Type}.
Implicit Types (st : @State W) (o : Instance) (m : @cached_method W).

Lemma fresh_run m o st argss :
  caching st = true → m_disabled m = false → o !! m_attrname m = None →
  total (m_func m) →
  Forall (λ c, all_hashable c.1 c.2 = true) argss →
  (cached_entries m (call_all m argss o st).1).*1 =
    keys_after (Z.to_nat <$> m_maxsize m) (m_typed m) argss [] ∧
  invocations (fn_name (m_func m)) (call_all m argss o st).2 =
    invocations (fn_name (m_func m)) st +
      misses (Z.to_nat <$> m_maxsize m) (m_typed m) argss [] ∧
  lru_typed (cache_of m (call_all m argss o st).1) = m_typed m.
Proof.
  intros Hc Hd Ho Ht Hh.
  destruct (call_all_keys m argss o st) as (H1 & H2 & H3);
    [done|done|intros v; by rewrite Ho|done|done|].
  assert (cached_entries m o = []) as He.
  { unfold cached_entries. by rewrite (fresh_cache_of _ _ Ho). }
  rewrite He in H1, H2.
  by rewrite (fresh_cache_of _ _ Ho) in H1, H2, H3.
Qed.

Lemma keys_two (N : option nat) (k1 k2 : Key) :
  N = None ∨ (∃ n, N = Some (S (S n))) →
  keys_step N k2 (keys_step N k1 []) = (if key_eq k1 k2 then [k1] else [k1; k2]) ∧
  is_miss N k1 [] = true ∧
  is_miss N k2 (keys_step N k1 []) = negb (key_eq k1 k2).
Proof.
  intros [->|[n ->]]; simpl; rewrite orb_false_r;
    destruct (key_eq k1 k2); done.
Qed.

Lemma maxsize_two m :
  m_maxsize m = None ∨ (∃ z, m_maxsize m = Some z ∧ (2 ≤ z)%Z) →
  Z.to_nat <$> m_maxsize m = None ∨
    (∃ n, Z.to_nat <$> m_maxsize m = Some (S (S n))).
Proof.
  intros [->|(z & -> & Hz)]; [by left|right].
  exists (Z.to_nat z - 2). simpl. f_equal. lia.
Qed.

(** Two calls on an instance without a cache: one invocation and one entry
    when the second key equals the first, two of each when it does not. *)
Lemma two_calls m o st a1 k1 a2 k2 :
  caching st = true → m_disabled m = false → o !! m_attrname m = None →
  total (m_func m) →
  m_maxsize m = None ∨ (∃ z, m_maxsize m = Some z ∧ (2 ≤ z)%Z) →
  all_hashable a1 k1 = true → all_hashable a2 k2 = true →
  let n := if key_eq (make_key a1 k1 (m_typed m)) (make_key a2 k2 (m_typed m))
           then 1 else 2 in
  invocations (fn_name (m_func m)) (call_all m [(a1, k1); (a2, k2)] o st).2
    = invocations (fn_name (m_func m)) st + n ∧
  length (cached_entries m (call_all m [(a1, k1); (a2, k2)] o st).1) = n.
Proof.
  intros Hc Hd Ho Ht Hm H1 H2.
  destruct (fresh_run m o st [(a1, k1); (a2, k2)]) as (E1 & E2 & _);
    [done..|by repeat constructor|].
  destruct (keys_two _ (make_key a1 k1 (m_typed m)) (make_key a2 k2 (m_typed m))
              (maxsize_two m Hm)) as (K1 & K2 & K3).
  simpl in *. rewrite K1 in E1. rewrite K2, K3 in E2.
  rewrite <- (length_fmap fst), E1, E2.
  destruct (key_eq _ _); simpl; split; lia.
Qed.

(** C7 (as amended).  Two calls with hashable arguments, the same keyword
    names in the same order, and positional and keyword argument values
    that are equal in value, call by call, made with caching on an
    instance without a cache for the method, whose function returns and
    whose cache has room for two entries:
    with [typed] set, when the value of some argument, positional or
    keyword, differs in type between the calls, they are two keys (two
    invocations, two entries);
    without it, the two calls are one key (one invocation, one entry) when
    they have keyword arguments, or not exactly one positional argument, or
    their single argument is in both calls, or in neither, an [int] or a
    [str];
    a single positional argument, without keyword arguments, that is an
    [int] or [str] in one call only (as in [(1,)] and [(1.0,)]) is two
    keys also without [typed]. *)
Theorem typed_and_untyped_keys m o st args1 args2 kwargs1 kwargs2 :
  caching st = true → m_disabled m = false → o !! m_attrname m = None →
  total (m_func m) →
  m_maxsize m = None ∨ (∃ z, m_maxsize m = Some z ∧ (2 ≤ z)%Z) →
  all_hashable args1 kwargs1 = true → all_hashable args2 kwargs2 = true →
  seq_eqb py_eq args1 args2 = true →
  kwargs1.*1 = kwargs2.*1 → seq_eqb py_eq kwargs1.*2 kwargs2.*2 = true →
  let run := call_all m [(args1, kwargs1); (args2, kwargs2)] o st in
  let f := fn_name (m_func m) in
  (m_typed m = true →
     type_of <$> (args1 ++ kwargs1.*2) ≠ type_of <$> (args2 ++ kwargs2.*2) →
     invocations f run.2 = invocations f st + 2 ∧
     length (cached_entries m run.1) = 2) ∧
  (m_typed m = false →
     kwargs1 ≠ [] ∨ length args1 ≠ 1 ∨ fasttype <$> args1 = fasttype <$> args2 →
     invocations f run.2 = invocations f st + 1 ∧
     length (cached_entries m run.1) = 1) ∧
  (m_typed m = false →
     kwargs1 = [] → length args1 = 1 → fasttype <$> args1 ≠ fasttype <$> args2 →
     invocations f run.2 = invocations f st + 2 ∧
     length (cached_entries m run.1) = 2).
Proof.
  intros Hc Hd Ho Ht Hm H1 H2 He Hn Hv run f.
  pose proof (two_calls m o st args1 kwargs1 args2 kwargs2 Hc Hd Ho Ht Hm H1 H2)
    as Htwo. simpl in Htwo. fold run f in Htwo.
  split_and!.
  - intros Ty Hty. rewrite Ty in Htwo.
    by rewrite typed_keys_differ_kw in Htwo.
  - intros Ty Hs. rewrite Ty in Htwo.
    by rewrite untyped_keys_equal_kw in Htwo.
  - intros Ty -> Hl Hf. rewrite Ty in Htwo.
    destruct kwargs2; [|done].
    pose proof (seq_eqb_length _ _ _ He) as Hl'.
    destruct args1 as [|x [|]], args2 as [|y [|]]; try done.
    rewrite untyped_single_keys_differ in Htwo; [done|].
    intros E. apply Hf. simpl. by rewrite E.
Qed.

Lemma cached_after_run m o st argss args kwargs :
  caching st = true → m_disabled m = false → o !! m_attrname m = None →
  total (m_func m) →
  Forall (λ c, all_hashable c.1 c.2 = true) argss →
  bool_decide (is_Some (cached m (call_all m argss o st).1 args kwargs)) =
    has_key (make_key args kwargs (m_typed m))
      (keys_after (Z.to_nat <$> m_maxsize m) (m_typed m) argss []).
Proof.
  intros Hc Hd Ho Ht Hh.
  destruct (fresh_run m o st argss) as (E1 & _ & E3); [done..|].
  by rewrite <- cached_has_key, E1, E3.
Qed.

Lemma keys_abc (kA kB kC : Key) :
  key_eq kA kB = false → key_eq kA kC = false → key_eq kB kC = false →
  keys_step (Some 2) kC (keys_step (Some 2) kB (keys_step (Some 2) kA []))
    = [kB; kC] ∧
  keys_step (Some 2) kC
    (keys_step (Some 2) kA (keys_step (Some 2) kB (keys_step (Some 2) kA [])))
    = [kA; kC].
Proof.
  intros Hab Hac Hbc.
  pose proof (key_eq_refl kA) as Haa.
  assert (keys_step (Some 2) kA [] = [kA]) as ->.
  { by rewrite keys_step_adds by (simpl; lia || done). }
  assert (keys_step (Some 2) kB [kA] = [kA; kB]) as ->.
  { rewrite keys_step_adds; [done|simpl; lia|]. simpl. by rewrite Hab. }
  assert (keys_step (Some 2) kA [kA; kB] = [kB; kA]) as ->.
  { rewrite keys_step_touches; [|lia|]; simpl; by rewrite Haa. }
  split.
  - rewrite keys_step_evicts; [done|lia|done|].
    simpl. by rewrite Hac, Hbc.
  - rewrite keys_step_evicts; [done|lia|done|].
    simpl. by rewrite Hac, Hbc.
Qed.

(** C8.  The keyed cache of a method declared with [maxsize] [N] never
    holds more than [N] entries, whatever is called.  Its keys are kept
    from the least to the most recently used: a call with a key that is
    there moves it to the most recently used end, and a call with a new key
    at capacity drops the least recently used key; after any run of calls
    the cache holds the [N] most recently used keys of the run.  With
    [N] = 2 and distinct keys, the calls A, B, C leave B and C cached and A
    evicted, while the calls A, B, A, C leave A and C cached and B
    evicted. *)
Theorem lru_bound_and_eviction m o st (N : nat) :
  m_maxsize m = Some (Z.of_nat N) → o !! m_attrname m = None →
  (∀ argss, length (cached_entries m (call_all m argss o st).1) ≤ N) ∧
  (caching st = true → m_disabled m = false → total (m_func m) →
   ∀ argss, Forall (λ c, all_hashable c.1 c.2 = true) argss →
     (cached_entries m (call_all m argss o st).1).*1
       = keys_after (Some N) (m_typed m) argss []) ∧
  (∀ k ks, 0 < N → length ks = N → has_key k ks = false →
     keys_step (Some N) k ks = tail ks ++ [k]) ∧
  (∀ k ks, 0 < N → has_key k ks = true →
     keys_step (Some N) k ks = move_to_end k ks) ∧
  (0 < N → caching st = true → m_disabled m = false → total (m_func m) →
   ∀ argss, Forall (λ c, all_hashable c.1 c.2 = true) argss →
     Forall2 keq (cached_entries m (call_all m argss o st).1).*1
       (most_recent N
          (recency ((λ c, make_key c.1 c.2 (m_typed m)) <$> argss)))) ∧
  (N = 2 → caching st = true → m_disabled m = false → total (m_func m) →
   ∀ a b c : list Value * list (string * Value),
     all_hashable a.1 a.2 = true → all_hashable b.1 b.2 = true →
     all_hashable c.1 c.2 = true →
     let key x := make_key x.1 x.2 (m_typed m) in
     key_eq (key a) (key b) = false → key_eq (key a) (key c) = false →
     key_eq (key b) (key c) = false →
     let o3 := (call_all m [a; b; c] o st).1 in
     let o4 := (call_all m [a; b; a; c] o st).1 in
     (cached m o3 a.1 a.2 = None ∧ is_Some (cached m o3 b.1 b.2) ∧
      is_Some (cached m o3 c.1 c.2)) ∧
     (is_Some (cached m o4 a.1 a.2) ∧ cached m o4 b.1 b.2 = None ∧
      is_Some (cached m o4 c.1 c.2))).
Proof.
  intros Hm Ho.
  assert (Z.to_nat <$> m_maxsize m = Some N) as HN.
  { rewrite Hm. simpl. by rewrite Nat2Z.id. }
  split_and!.
  - intros argss.
    destruct (call_all_within N m argss o st) as [_ Hl]; [|done].
    rewrite (fresh_cache_of _ _ Ho). unfold lru_cache. rewrite HN.
    split; simpl; [done|lia].
  - intros Hc Hd Ht argss Hh.
    destruct (fresh_run m o st argss) as (E1 & _); [done..|].
    by rewrite E1, HN.
  - apply keys_step_evicts.
  - apply keys_step_touches.
  - intros HN0 Hc Hd Ht argss Hh.
    destruct (fresh_run m o st argss) as (E1 & _); [done..|].
    rewrite E1, HN, keys_after_foldl. by apply keys_most_recent.
  - intros -> Hc Hd Ht [a1 a2] [b1 b2] [c1 c2] Ha Hb Hcc key Hab Hac Hbc o3 o4.
    simpl in Ha, Hb, Hcc.
    destruct (keys_abc _ _ _ Hab Hac Hbc) as [K3 K4].
    pose proof (key_eq_refl (key (a1, a2))) as Haa.
    pose proof (key_eq_refl (key (b1, b2))) as Hbb.
    pose proof (key_eq_refl (key (c1, c2))) as Hc3.
    pose proof (key_eq_comm (key (a1, a2)) (key (b1, b2))) as Hba.
    pose proof (key_eq_comm (key (a1, a2)) (key (c1, c2))) as Hca.
    pose proof (key_eq_comm (key (b1, b2)) (key (c1, c2))) as Hcb.
    rewrite Hab in Hba. rewrite Hac in Hca. rewrite Hbc in Hcb.
    assert (Forall (λ c, all_hashable c.1 c.2 = true)
              [(a1, a2); (b1, b2); (c1, c2)]) as H3 by (by repeat constructor).
    assert (Forall (λ c, all_hashable c.1 c.2 = true)
              [(a1, a2); (b1, b2); (a1, a2); (c1, c2)]) as H4
      by (by repeat constructor).
    pose proof (λ x y, cached_after_run m o st _ x y Hc Hd Ho Ht H3) as R3.
    pose proof (λ x y, cached_after_run m o st _ x y Hc Hd Ho Ht H4) as R4.
    rewrite HN in R3, R4. simpl in R3, R4, K3, K4. fold o3 in R3. fold o4 in R4.
    unfold key in *. simpl in *.
    rewrite K3 in R3. rewrite K4 in R4.
    pose proof (R3 a1 a2) as R3a. pose proof (R3 b1 b2) as R3b.
    pose proof (R3 c1 c2) as R3c. pose proof (R4 a1 a2) as R4a.
    pose proof (R4 b1 b2) as R4b. pose proof (R4 c1 c2) as R4c.
    simpl in *.
    rewrite <- Hba, <- Hca in R3a.
    rewrite Hbb in R3b. rewrite Hbc, Hc3 in R3c.
    rewrite Haa in R4a. rewrite Hab, <- Hcb in R4b. rewrite Hac, Hc3 in R4c.
    simpl in *.
    apply bool_decide_eq_false_1 in R3a. apply bool_decide_eq_true_1 in R3b.
    apply bool_decide_eq_true_1 in R3c. apply bool_decide_eq_true_1 in R4a.
    apply bool_decide_eq_false_1 in R4b. apply bool_decide_eq_true_1 in R4c.
    split; split_and!; try done.
    + by apply eq_None_not_Some.
    + by apply eq_None_not_Some.
Qed.

End RunFacts.

(** ** Traversal *)

Lemma updated_refl (h : Heap) : updated h h.
Proof. intros l. by left. Qed.

Lemma updated_trans (h1 h2 h3 : Heap) :
  updated h1 h2 → updated h2 h3 → updated h1 h3.
Proof.
  intros H12 H23 l.
  destruct (H12 l) as [E12|(kw & sub & E1 & Hc & E2)],
           (H23 l) as [E23|(kw' & sub' & E2' & Hc' & E3)].
  - left. congruence.
  - right. exists kw', sub'. by rewrite <- E12.
  - right. exists kw, sub. split_and!; [done..|congruence].
  - right. exists kw, sub'. split_and!; [done..|].
    rewrite E3. rewrite E2 in E2'. simplify_eq. by rewrite insert_insert_eq.
Qed.

Lemma updated_alter (h : Heap) l kwargs sub :
  h !! l = Some kwargs → is_Some (kwargs !! "child_cls") →
  updated h (alter (insert "child_attrs" (OAttrs sub)) l h).
Proof.
  intros Hl Hc l'. destruct (decide (l = l')) as [<-|Hne].
  - right. exists kwargs, sub. split_and!; [done..|].
    by rewrite lookup_alter_eq, Hl.
  - left. by rewrite lookup_alter_ne.
Qed.

(** A traversal leaves the [child_cls] entries alone, and so every
    dictionary without one. *)
Lemma updated_lookup (h h' : Heap) l kwargs :
  updated h h' → h !! l = Some kwargs →
  ∃ kwargs', h' !! l = Some kwargs' ∧
             kwargs' !! "child_cls" = kwargs !! "child_cls" ∧
             (kwargs !! "child_cls" = None → kwargs' = kwargs).
Proof.
  intros Hu Hl. destruct (Hu l) as [E|(kw & sub & E1 & Hc & E2)].
  - exists kwargs. by rewrite E.
  - rewrite Hl in E1. simplify_eq. eexists. split; [done|].
    split; [by rewrite lookup_insert_ne|].
    intros Hn. rewrite Hn in Hc. by destruct Hc.
Qed.

Lemma updated_lookup_inv (h h' : Heap) l kwargs' :
  updated h h' → h' !! l = Some kwargs' →
  ∃ kwargs, h !! l = Some kwargs ∧
            kwargs' !! "child_cls" = kwargs !! "child_cls".
Proof.
  intros Hu Hl. destruct (Hu l) as [E|(kw & sub & E1 & Hc & E2)].
  - exists kwargs'. by rewrite <- E.
  - rewrite Hl in E2. simplify_eq. eexists. split; [done|].
    by rewrite lookup_insert_ne.
Qed.

Lemma updated_None (h h' : Heap) l :
  updated h h' → h !! l = None → h' !! l = None.
Proof.
  intros Hu Hl. destruct (Hu l) as [E|(kw & sub & E1 & _)]; congruence.
Qed.

Lemma loop_spec rec key value members :
  (∀ child h r h', rec child h = Some (Return (r, h')) → updated h h') →
  ∀ attrs h attrs' h' h0,
    updated h0 h →
    loop rec key value members attrs h = Some (Return (attrs', h')) →
    updated h0 h' ∧
    (∀ attr, is_Some (attrs' !! attr) ↔
             is_Some (attrs !! attr) ∨ listed key value h0 members attr) ∧
    (∀ attr x, attrs' !! attr = Some x →
               attrs !! attr = Some x ∨
               ∃ l, (attr, Some l) ∈ members ∧ x = ORef l).
Proof.
  intros Hrec. unfold listed.
  induction members as [|[attr [l|]] members IH];
    intros attrs h attrs' h' h0 Hu Hloop.
  - simpl in Hloop. simplify_eq. split_and!; [done| |by left].
    intros a. split; [by left|]. intros [?|(?&?&?%elem_of_nil&_)]; done.
  - simpl in Hloop.
    destruct (h !! l) as [kw|] eqn:Hl.
    2:{ (* a reference to no dictionary: the member is passed over *)
      destruct (IH _ _ _ _ _ Hu Hloop) as (IH1 & IH2 & IH3).
      split_and!; [done| |].
      - intros a. rewrite IH2. split.
        + intros [?|(l' & kw' & Hin & Hl' & Hs)]; [by left|right].
          exists l', kw'. split_and!; [by right|done..].
        + intros [?|(l' & kw' & Hin & Hl' & Hs)]; [by left|].
          apply elem_of_cons in Hin as [[= -> ->]|Hin].
          * destruct (updated_lookup _ _ _ _ Hu Hl') as (? & ? & _). congruence.
          * right. by exists l', kw'.
      - intros a x Hx. destruct (IH3 _ _ Hx) as [?|(l' & Hin & ->)]; [by left|].
        right. exists l'. split; [by right|done]. }
    destruct (updated_lookup_inv _ _ _ _ Hu Hl) as (kw0 & Hl0 & Hc0).
    assert (kw0 !! "child_cls" = None → kw = kw0) as Hsame.
    { intros Hn. destruct (updated_lookup _ _ _ _ Hu Hl0) as (kw' & E & _ & Hk).
      rewrite Hl in E. simplify_eq. by apply Hk. }
    destruct (kw !! "child_cls") as [child|] eqn:Hc.
    + (* a member with a child class *)
      destruct (assert_type child) as [c'|e] eqn:Ha; [|done].
      destruct (rec child h) as [[[sub h1]|e]|] eqn:Hr; [|done..].
      pose proof (Hrec _ _ _ _ Hr) as Hu1.
      destruct (updated_lookup _ _ _ _ Hu1 Hl) as (kw1 & Hl1 & Hc1 & _).
      assert (updated h0 (alter (insert "child_attrs" (OAttrs sub)) l h1)) as Hu2.
      { eapply updated_trans; [exact Hu|].
        eapply updated_trans; [exact Hu1|].
        eapply updated_alter; [done|]. rewrite Hc1, Hc. by eexists. }
      destruct (IH _ _ _ _ _ Hu2 Hloop) as (IH1 & IH2 & IH3).
      split_and!; [done| |].
      * intros a. rewrite IH2. split.
        -- intros [Hin|(l' & kw' & Hin & Hl' & Hs)].
           ++ destruct (decide (a = attr)) as [->|Hne].
              ** right. exists l, kw0. split_and!; [by left|done|].
                 right. rewrite <- Hc0. by eexists.
              ** left. rewrite lookup_insert_ne in Hin by done.
                 destruct (selected key value kw); [|done].
                 by rewrite lookup_insert_ne in Hin.
           ++ right. exists l', kw'. split_and!; [by right|done..].
        -- intros [Hin|(l' & kw' & Hin & Hl' & Hs)].
           ++ left. destruct (decide (a = attr)) as [->|Hne].
              ** rewrite lookup_insert_eq. by eexists.
              ** rewrite lookup_insert_ne by done.
                 destruct (selected key value kw); [|done].
                 by rewrite lookup_insert_ne.
           ++ apply elem_of_cons in Hin as [[= -> ->]|Hin].
              ** left. rewrite lookup_insert_eq. by eexists.
              ** right. by exists l', kw'.
      * intros a x Hx. destruct (IH3 _ _ Hx) as [Hin|(l' & Hin & ->)].
        -- destruct (decide (a = attr)) as [->|Hne].
           ++ rewrite lookup_insert_eq in Hin. simplify_eq.
              right. exists l. split; [by left|done].
           ++ rewrite lookup_insert_ne in Hin by done.
              destruct (selected key value kw); [|by left].
              rewrite lookup_insert_ne in Hin by done. by left.
        -- right. exists l'. split; [by right|done].
    + (* a member without a child class *)
      rewrite Hc0 in Hsame. specialize (Hsame eq_refl). subst kw0.
      destruct (IH _ _ _ _ _ Hu Hloop) as (IH1 & IH2 & IH3).
      split_and!; [done| |].
      * intros a. rewrite IH2. split.
        -- intros [Hin|(l' & kw' & Hin & Hl' & Hs)].
           ++ destruct (selected key value kw) eqn:Hsel; [|by left].
              destruct (decide (a = attr)) as [->|Hne].
              ** right. exists l, kw. split_and!; [by left|done|by left].
              ** left. by rewrite lookup_insert_ne in Hin.
           ++ right. exists l', kw'. split_and!; [by right|done..].
        -- intros [Hin|(l' & kw' & Hin & Hl' & Hs)].
           ++ left. destruct (selected key value kw); [|done].
              destruct (decide (a = attr)) as [->|Hne].
              ** rewrite lookup_insert_eq. by eexists.
              ** by rewrite lookup_insert_ne.
           ++ apply elem_of_cons in Hin as [[= -> ->]|Hin].
              ** left. rewrite Hl0 in Hl'. simplify_eq.
                 destruct Hs as [Hs|Hs].
                 --- rewrite Hs, lookup_insert_eq. by eexists.
                 --- rewrite Hc in Hs. by destruct Hs.
              ** right. by exists l', kw'.
      * intros a x Hx. destruct (IH3 _ _ Hx) as [Hin|(l' & Hin & ->)].
        -- destruct (selected key value kw); [|by left].
           destruct (decide (a = attr)) as [->|Hne].
           ++ rewrite lookup_insert_eq in Hin. simplify_eq.
              right. exists l. split; [by left|done].
           ++ rewrite lookup_insert_ne in Hin by done. by left.
        -- right. exists l'. split; [by right|done].
  - (* an attribute without [kwargs] *)
    simpl in Hloop.
    destruct (IH _ _ _ _ _ Hu Hloop) as (IH1 & IH2 & IH3).
    split_and!; [done| |].
    + intros a. rewrite IH2. split.
      * intros [?|(l' & kw' & Hin & Hl' & Hs)]; [by left|right].
        exists l', kw'. split_and!; [by right|done..].
      * intros [?|(l' & kw' & Hin & Hl' & Hs)]; [by left|].
        apply elem_of_cons in Hin as [[= ]|Hin].
        right. by exists l', kw'.
    + intros a x Hx. destruct (IH3 _ _ Hx) as [?|(l' & Hin & ->)]; [by left|].
      right. exists l'. split; [by right|done].
Qed.

Lemma traverse_spec fuel classes cls key value h attrs h' :
  traverse_attr_kwargs fuel classes cls key value h = Some (Return (attrs, h')) →
  updated h h' ∧
  ∃ c, cls = OType c ∧
    (∀ attr, is_Some (attrs !! attr) ↔
             listed key (normalize value) h (dir classes c) attr) ∧
    (∀ attr x, attrs !! attr = Some x →
               ∃ l, (attr, Some l) ∈ dir classes c ∧ x = ORef l).
Proof.
  revert cls value h attrs h'.
  induction fuel as [|fuel IH]; intros cls value h attrs h' Ht; [done|].
  simpl in Ht. destruct cls as [v|c|l|d]; try done. simpl in Ht.
  eapply loop_spec in Ht as (H1 & H2 & H3); [|by intros ???? [? _]%IH|apply updated_refl].
  split; [done|]. exists c. split_and!; [done| |].
  - intros attr. rewrite H2. split; [|by right].
    intros [[? ?]|?]; [by rewrite lookup_empty in *|done].
  - intros attr x Hx. by destruct (H3 _ _ Hx) as [?|?]; [rewrite lookup_empty in *|].
Qed.

Lemma ranked_updated classes rank (h h' : Heap) :
  ranked classes rank h → updated h h' → ranked classes rank h'.
Proof.
  intros Hr Hu c attr l kw' child Hin Hl Hc.
  destruct (updated_lookup_inv _ _ _ _ Hu Hl) as (kw & Hl0 & Hc0).
  eapply Hr; [done..|]. by rewrite <- Hc0.
Qed.

Lemma loop_returns classes rank rec key value c members :
  (∀ c' h, ranked classes rank h → rank c' < rank c →
     ∃ r h', rec (OType c') h = Some (Return (r, h')) ∧ updated h h') →
  (∀ x, x ∈ members → x ∈ dir classes c) →
  ∀ attrs h, ranked classes rank h →
    ∃ attrs' h', loop rec key value members attrs h = Some (Return (attrs', h')).
Proof.
  intros Hrec. induction members as [|[attr [l|]] members IH];
    intros Hsub attrs h Hr.
  - by eexists _, _.
  - assert (∀ x, x ∈ members → x ∈ dir classes c) as Hsub'.
    { intros x Hx. apply Hsub. by right. }
    simpl. destruct (h !! l) as [kw|] eqn:Hl; [|by apply IH].
    destruct (kw !! "child_cls") as [child|] eqn:Hc; [|by apply IH].
    destruct (Hr c attr l kw child) as (c' & -> & Hlt); [apply Hsub; by left|done..|].
    simpl. destruct (Hrec c' h Hr Hlt) as (sub & h1 & -> & Hu1).
    apply IH; [done|].
    eapply ranked_updated; [exact Hr|].
    eapply updated_trans; [exact Hu1|].
    destruct (updated_lookup _ _ _ _ Hu1 Hl) as (kw1 & Hl1 & Hc1 & _).
    eapply updated_alter; [done|]. rewrite Hc1, Hc. by eexists.
  - simpl. apply IH; [|done]. intros x Hx. apply Hsub. by right.
Qed.

(** Where the child classes form no cycle, the traversal of a class
    returns once the bound exceeds the rank of the class. *)
Lemma traverse_returns classes rank key n :
  ∀ value c h, ranked classes rank h → rank c < n →
    ∃ attrs h',
      traverse_attr_kwargs n classes (OType c) key value h
        = Some (Return (attrs, h')).
Proof.
  induction n as [|n IH]; intros value c h Hr Hn; [lia|].
  simpl. eapply loop_returns; [|done|done].
  intros c' h1 Hr1 Hlt.
  destruct (IH (normalize value) c' h1 Hr1) as (r & h' & Ht); [lia|].
  exists r, h'. split; [done|]. by apply traverse_spec in Ht as [? _].
Qed.

Lemma selected_tuple K vs (kwargs : Dict) :
  selected (Some K) (VTuple vs) kwargs = true ↔
  ∃ x v, kwargs !! K = Some (OVal x) ∧ v ∈ vs ∧ py_eq v x = true.
Proof.
  unfold selected, obj_in.
  destruct (kwargs !! K) as [o|]; [|split; [done|by intros (? & ? & ? & _)]].
  rewrite existsb_exists. split.
  - intros (v & Hin & Hv). destruct o as [x| | |]; try done.
    exists x, v. by rewrite list_elem_of_In.
  - intros (x & v & [= ->] & Hin & Hv). exists v. by rewrite <- list_elem_of_In.
Qed.

(** C4 (as amended).  With a filter key and a tuple of filter values, the
    mapping that the traversal of a class returns contains exactly the
    members whose configuration has the key with a value among the given
    ones, and, whatever the filter, every member whose configuration has a
    [child_cls] entry.  Where the child classes form no cycle the
    traversal returns.  A single value that is not a tuple stands for the
    one-element tuple of it. *)
Theorem traversal_filter classes c K vs h :
  (∀ fuel attrs h',
     traverse_attr_kwargs fuel classes (OType c) (Some K) (VTuple vs) h
       = Some (Return (attrs, h')) →
     ∀ attr, is_Some (attrs !! attr) ↔
       ∃ l kwargs, (attr, Some l) ∈ dir classes c ∧ h !! l = Some kwargs ∧
         ((∃ x v, kwargs !! K = Some (OVal x) ∧ v ∈ vs ∧ py_eq v x = true) ∨
          is_Some (kwargs !! "child_cls"))) ∧
  (∀ rank, ranked classes rank h →
     ∃ attrs h',
       traverse_attr_kwargs (S (rank c)) classes (OType c) (Some K) (VTuple vs) h
         = Some (Return (attrs, h'))) ∧
  (∀ fuel cls key v,
     normalize v = VTuple [v] →
     traverse_attr_kwargs fuel classes cls key v h
       = traverse_attr_kwargs fuel classes cls key (VTuple [v]) h).
Proof.
  split_and!.
  - intros fuel attrs h' Ht attr.
    apply traverse_spec in Ht as (_ & c' & [= <-] & Hdom & _).
    rewrite Hdom. unfold listed. simpl.
    by setoid_rewrite selected_tuple.
  - intros rank Hr. apply (traverse_returns classes rank); [done|lia].
  - intros [|fuel] cls key v Hv; [done|]. simpl. by rewrite Hv.
Qed.

(** C5 (as amended).  A traversal that returns leaves the configuration of
    every member that has no [child_cls] entry as it was; the
    configuration of a member that has one is as it was or is the one it
    was with the [child_attrs] entry set, so that every entry of every
    configuration other than [child_attrs] is as it was; no configuration
    is added or removed.  The mapping it returns is new, but what it holds
    under a member's name is that member's own configuration dictionary,
    not a copy. *)
Theorem traversal_frame fuel classes cls key value h attrs h' :
  traverse_attr_kwargs fuel classes cls key value h = Some (Return (attrs, h')) →
  (∀ l kwargs, h !! l = Some kwargs → kwargs !! "child_cls" = None →
               h' !! l = Some kwargs) ∧
  (∀ l kwargs, h !! l = Some kwargs → is_Some (kwargs !! "child_cls") →
               h' !! l = Some kwargs ∨
               ∃ sub, h' !! l = Some (<["child_attrs" := OAttrs sub]> kwargs)) ∧
  (∀ l kwargs, h !! l = Some kwargs →
               ∃ kwargs', h' !! l = Some kwargs' ∧
                 ∀ k, k ≠ "child_attrs" → kwargs' !! k = kwargs !! k) ∧
  (∀ l, is_Some (h' !! l) ↔ is_Some (h !! l)) ∧
  (∃ c, cls = OType c ∧
     ∀ attr x, attrs !! attr = Some x →
               ∃ l, (attr, Some l) ∈ dir classes c ∧ x = ORef l).
Proof.
  intros Ht. apply traverse_spec in Ht as (Hu & c & -> & _ & Hval).
  split_and!.
  - intros l kw Hl Hc.
    destruct (updated_lookup _ _ _ _ Hu Hl) as (kw' & Hl' & _ & Hsame).
    by rewrite Hl', Hsame.
  - intros l kw Hl _. destruct (Hu l) as [E|(kw0 & sub & E1 & _ & E2)].
    + left. by rewrite E.
    + right. rewrite Hl in E1. simplify_eq. by exists sub.
  - intros l kw Hl. destruct (Hu l) as [E|(kw0 & sub & E1 & _ & E2)].
    + exists kw. by rewrite E.
    + rewrite Hl in E1. simplify_eq. eexists. split; [done|].
      intros k Hk. by rewrite lookup_insert_ne.
  - intros l. split.
    + intros [kw' Hl']. destruct (updated_lookup_inv _ _ _ _ Hu Hl') as (kw & ? & _).
      by eexists.
    + intros [kw Hl]. destruct (updated_lookup _ _ _ _ Hu Hl) as (kw' & ? & _).
      by eexists.
  - by exists c.
Qed.

(** ** The accessor binder *)











(** * The statements on the sample declarations *)

Example traverse_sample :
  traverse_attr_kwargs 2 sample_classes (OType 0) (Some "tag")
    (VTuple [VInt 1; VInt 3]) sample_heap
  = Some (Return (sample_attrs, sample_heap_after)).
Proof. vm_compute. reflexivity. Qed.

Example replace_cumsum : method_name (mkNbFunc "cumsum_nb" []) = "cumsum".
Proof. reflexivity. Qed.

Example replace_diff : method_name (mkNbFunc "diff_1d_nb" []) = "diff".
Proof. reflexivity. Qed.

Example replace_no_overlap : replace "aa" "b" "aaa" = "ba".
Proof. reflexivity. Qed.

Example replace_chain : method_name (mkNbFunc "x_n_1db" []) = "x".
Proof. reflexivity. Qed.

(** C1, where the claim fails: a property whose function raises is
    computed again on every access; two accesses invoke it twice. *)
Lemma property_raising_invoked_again :
  caching (started tt) = true ∧
  disabled (property_p (failing "p")) = false ∧
  invocations "p" (started tt) = 0 ∧
  invocations "p" (gets (property_p (failing "p")) 2 ∅ (started tt)).2 = 2.
Proof. vm_compute. by split_and!. Qed.

Lemma property_computed_at_most_once_witness :
  caching (started 0) = true ∧
  disabled (property_p (flaky "p")) = false ∧
  completions "p" (gets (property_p (flaky "p")) 5 ∅ (started 0)).2
    ≤ completions "p" (started 0) + 1.
Proof.
  split; [reflexivity|]. split; [reflexivity|].
  exact (proj1 (property_computed_at_most_once
                  (property_p (flaky "p")) ∅ (started 0) 5 eq_refl eq_refl)).
Defined.

(** C2, where the claim fails: the first call with an unhashable argument
    on an instance without attributes leaves an (empty) cache object in
    the instance. *)
Lemma unhashable_call_creates_cache :
  all_hashable [VList [VInt 1]] [] = false ∧
  (wrapper (method_f (constant "f" (VInt 7)) false) ∅ [VList [VInt 1]] []
     (started tt)).1.2
  = {[ "__cached_f" := SCache (mkLru (Some 128) false []) ]}.
Proof. split; [reflexivity|]. vm_compute. reflexivity. Qed.

Lemma unhashable_call_uncached_witness :
  all_hashable [VList [VInt 1]] [] = false ∧
  invocations "f"
    (wrapper (method_f (constant "f" (VInt 7)) false) ∅ [VList [VInt 1]] []
       (started tt)).2 = 1.
Proof.
  split; [reflexivity|].
  destruct (unhashable_call_uncached (method_f (constant "f" (VInt 7)) false)
              ∅ [VList [VInt 1]] [] (started tt) eq_refl)
    as (o' & _ & _ & Hinv & _).
  exact Hinv.
Defined.

Lemma failed_computation_not_cached_witness :
  (∃ st1,
     get (property_p (failing "p")) ∅ (started tt)
       = (Raise (Exception "failed"), ∅, st1) ∧
     invocations "p" (get (property_p (failing "p")) ∅ st1).2
       = S (invocations "p" st1)) ∧
  (∃ o1 st1,
     wrapper (method_f (failing "f") false) ∅ [VInt 1] [] (started tt)
       = (Raise (Exception "failed"), o1, st1) ∧
     cached (method_f (failing "f") false) o1 [VInt 1] [] = None).
Proof.
  split.
  - exact (proj1 failed_computation_not_cached (property_p (failing "p")) ∅
             (started tt) (Exception "failed") eq_refl eq_refl
             (lookup_empty _) eq_refl).
  - destruct (proj2 failed_computation_not_cached
                (method_f (failing "f") false) ∅ [VInt 1] [] (started tt)
                (Exception "failed"))
      as (o1 & st1 & Hw & _ & Hc & _).
    + reflexivity.
    + reflexivity.
    + reflexivity.
    + intros v. vm_compute. discriminate.
    + reflexivity.
    + reflexivity.
    + exists o1, st1. split; [exact Hw|exact Hc].
Defined.

(** C6, where the claim fails: on an instance that does not hold the
    slot, but whose type answers for every name, clearing raises an
    attribute error; and on an instance that holds the value already, an
    access, a clearing and another access invoke the function once. *)
Lemma clear_raises_or_recomputes_once :
  (∅ : Instance) !! attrname property_seven = None ∧
  clear_cache property_seven with_getattr ∅
    = Raise (AttributeError "__cached_p") ∧
  computed_p !! attrname property_seven = Some (SVal (VInt 7)) ∧
  clear_cache property_seven plain_type
    (get property_seven computed_p (started tt)).1.2 = Return ∅ ∧
  invocations "p" (started tt) = 0 ∧
  invocations "p"
    (get property_seven ∅ (get property_seven computed_p (started tt)).2).2
  = 1.
Proof. vm_compute. by split_and!. Qed.

Lemma clear_then_recompute_witness :
  (∅ : Instance) !! attrname property_seven = None ∧
  (∀ o2,
     clear_cache property_seven with_getattr
       (get property_seven ∅ (started tt)).1.2 = Return o2 →
     invocations "p"
       (get property_seven o2 (get property_seven ∅ (started tt)).2).2 = 2) ∧
  ∃ o2, clear_cache property_seven with_getattr
          (get property_seven ∅ (started tt)).1.2 = Return o2.
Proof.
  split; [reflexivity|].
  destruct (clear_then_recompute property_seven with_getattr ∅ (started tt))
    as (_ & _ & _ & _ & Hex & Hinv).
  split; [exact Hinv|].
  apply Hex. right. split; [reflexivity|]. split; [reflexivity|].
  right. exists (VInt 7). reflexivity.
Defined.

(** C4, where the claim fails: the member [child], whose configuration
    has no [tag] entry at all, is in the mapping returned for the filter
    on [tag], because it declares a child class. *)
Lemma traversal_lists_child_member :
  ∃ attrs h',
    traverse_attr_kwargs 2 sample_classes (OType 0) (Some "tag")
      (VTuple [VInt 1; VInt 3]) sample_heap = Some (Return (attrs, h')) ∧
    sample_heap !! 3 = Some {[ "child_cls" := OType 1 ]} ∧
    ({[ "child_cls" := OType 1 ]} : Dict) !! "tag" = None ∧
    attrs !! "child" = Some (ORef 3).
Proof.
  exists sample_attrs, sample_heap_after.
  split; [apply traverse_sample|]. vm_compute. by split_and!.
Qed.

Lemma sample_dir_0 :
  dir sample_classes 0 =
    [("a", Some 0); ("b", Some 1); ("c", Some 2); ("child", Some 3);
     ("__doc__", None)].
Proof. vm_compute. reflexivity. Defined.

Lemma sample_dir_1 : dir sample_classes 1 = [("x", Some 4)].
Proof. vm_compute. reflexivity. Defined.

Lemma sample_dir_other c : dir sample_classes (S (S c)) = [].
Proof.
  unfold dir, sample_classes.
  by rewrite lookup_insert_ne, lookup_singleton_ne.
Defined.

Lemma sample_ranked : ranked sample_classes sample_rank sample_heap.
Proof.
  intros c attr l kwargs child Hin Hl Hc.
  destruct c as [|[|c]].
  - rewrite sample_dir_0 in Hin.
    repeat (apply elem_of_cons in Hin as [Hin|Hin]);
      [injection Hin as -> ->; vm_compute in Hl; injection Hl as <-;
       vm_compute in Hc; try discriminate..| |].
    + injection Hc as <-. exists 1. split; [reflexivity|]. simpl. lia.
    + discriminate.
    + by apply elem_of_nil in Hin.
  - rewrite sample_dir_1 in Hin.
    apply elem_of_cons in Hin as [Hin|Hin]; [|by apply elem_of_nil in Hin].
    injection Hin as -> ->. vm_compute in Hl. injection Hl as <-.
    vm_compute in Hc. discriminate.
  - rewrite sample_dir_other in Hin. by apply elem_of_nil in Hin.
Defined.

Lemma traversal_filter_witness :
  (is_Some (sample_attrs !! "a") ∧ ¬ is_Some (sample_attrs !! "b")) ∧
  ∃ attrs h',
    traverse_attr_kwargs (S (sample_rank 0)) sample_classes (OType 0)
      (Some "tag") (VTuple [VInt 1; VInt 3]) sample_heap
    = Some (Return (attrs, h')).
Proof.
  destruct (traversal_filter sample_classes 0 "tag" [VInt 1; VInt 3] sample_heap)
    as (Hdom & Hret & _).
  assert (traverse_attr_kwargs 2 sample_classes (OType 0) (Some "tag")
            (VTuple [VInt 1; VInt 3]) sample_heap
          = Some (Return (sample_attrs, sample_heap_after))) as Ht.
  { vm_compute. reflexivity. }
  split; [split|].
  - apply (Hdom _ _ _ Ht "a").
    exists 0, {[ "tag" := OVal (VInt 1) ]}. split_and!.
    + rewrite sample_dir_0. by left.
    + vm_compute. reflexivity.
    + left. exists (VInt 1), (VInt 1). split_and!;
        [vm_compute; reflexivity|by left|reflexivity].
  - intros [x Hx]. vm_compute in Hx. discriminate.
  - exact (Hret sample_rank sample_ranked).
Defined.

(** C5, where the claim fails: after the traversal the configuration of
    the member [child] holds a [child_attrs] entry that it did not hold
    before, and what the result holds under [child] is a reference to that
    very configuration. *)
Lemma traversal_updates_configuration :
  ∃ attrs h',
    traverse_attr_kwargs 2 sample_classes (OType 0) (Some "tag")
      (VTuple [VInt 1; VInt 3]) sample_heap = Some (Return (attrs, h')) ∧
    sample_heap !! 3 = Some {[ "child_cls" := OType 1 ]} ∧
    h' !! 3 = Some {[ "child_cls" := OType 1;
                      "child_attrs" := OAttrs {[ "x" := ORef 4 ]} ]} ∧
    h' !! 3 ≠ sample_heap !! 3 ∧
    attrs !! "child" = Some (ORef 3).
Proof.
  exists sample_attrs, sample_heap_after.
  split; [apply traverse_sample|]. vm_compute. by split_and!.
Qed.

Lemma traversal_frame_witness :
  traverse_attr_kwargs 2 sample_classes (OType 0) (Some "tag")
    (VTuple [VInt 1; VInt 3]) sample_heap
    = Some (Return (sample_attrs, sample_heap_after)) ∧
  sample_heap_after !! 1 = Some {[ "tag" := OVal (VInt 2) ]}.
Proof.
  assert (traverse_attr_kwargs 2 sample_classes (OType 0) (Some "tag")
            (VTuple [VInt 1; VInt 3]) sample_heap
          = Some (Return (sample_attrs, sample_heap_after))) as Ht.
  { vm_compute. reflexivity. }
  split; [exact Ht|].
  destruct (traversal_frame _ _ _ _ _ _ _ _ Ht) as (Hf & _).
  apply Hf; vm_compute; reflexivity.
Defined.

(** C7, where the claim fails: without [typed], the calls with [(1,)] and
    with [(1.0,)] are still two keys, two invocations and two entries. *)
Lemma untyped_int_and_float_separate :
  m_typed (method_f (constant "f" (VInt 7)) false) = false ∧
  py_eq (VInt 1) one_float = true ∧
  invocations "f" (started tt) = 0 ∧
  invocations "f"
    (call_all (method_f (constant "f" (VInt 7)) false)
       [([VInt 1], []); ([one_float], [])] ∅ (started tt)).2 = 2 ∧
  length (cached_entries (method_f (constant "f" (VInt 7)) false)
            (call_all (method_f (constant "f" (VInt 7)) false)
               [([VInt 1], []); ([one_float], [])] ∅ (started tt)).1) = 2.
Proof. vm_compute. by split_and!. Qed.

Lemma constant_total name v : total (constant name v).
Proof. intros w i a k. exists v, w. reflexivity. Defined.

Lemma typed_and_untyped_keys_witness :
  seq_eqb py_eq [VInt 1] [one_float] = true ∧
  seq_eqb py_eq [VInt 0] [zero_float] = true ∧
  (length (cached_entries (method_f (constant "f" (VInt 7)) true)
             (call_all (method_f (constant "f" (VInt 7)) true)
                [([VInt 1], []); ([one_float], [])] ∅ (started tt)).1) = 2) ∧
  (length (cached_entries (method_f (constant "f" (VInt 7)) true)
             (call_all (method_f (constant "f" (VInt 7)) true)
                [([VInt 1], [("axis", VInt 0)]);
                 ([VInt 1], [("axis", zero_float)])] ∅ (started tt)).1) = 2) ∧
  (length (cached_entries (method_f (constant "f" (VInt 7)) false)
             (call_all (method_f (constant "f" (VInt 7)) false)
                [([VInt 1; VInt 2], []); ([one_float; VInt 2], [])] ∅
                (started tt)).1) = 1).
Proof.
  split; [reflexivity|]. split; [reflexivity|]. split; [|split].
  - destruct (typed_and_untyped_keys (method_f (constant "f" (VInt 7)) true)
                ∅ (started tt) [VInt 1] [one_float] [] [])
      as (H & _ & _);
      [reflexivity|reflexivity|reflexivity|apply constant_total| |
       reflexivity|reflexivity|reflexivity|reflexivity|reflexivity|].
    + right. exists 128%Z. split; [reflexivity|lia].
    + apply H; [reflexivity|]. simpl. discriminate.
  - destruct (typed_and_untyped_keys (method_f (constant "f" (VInt 7)) true)
                ∅ (started tt) [VInt 1] [VInt 1]
                [("axis", VInt 0)] [("axis", zero_float)])
      as (H & _ & _);
      [reflexivity|reflexivity|reflexivity|apply constant_total| |
       reflexivity|reflexivity|reflexivity|reflexivity|reflexivity|].
    + right. exists 128%Z. split; [reflexivity|lia].
    + apply H; [reflexivity|]. simpl. discriminate.
  - destruct (typed_and_untyped_keys (method_f (constant "f" (VInt 7)) false)
                ∅ (started tt) [VInt 1; VInt 2] [one_float; VInt 2] [] [])
      as (_ & H & _);
      [reflexivity|reflexivity|reflexivity|apply constant_total| |
       reflexivity|reflexivity|reflexivity|reflexivity|reflexivity|].
    + right. exists 128%Z. split; [reflexivity|lia].
    + apply H; [reflexivity|]. right. left. simpl. lia.
Defined.

Lemma lru_bound_and_eviction_witness :
  m_maxsize (decorator (constant "f" (VInt 7)) (Some (Z.of_nat 2)) false false 0)
    = Some (Z.of_nat 2) ∧
  length (cached_entries
            (decorator (constant "f" (VInt 7)) (Some (Z.of_nat 2)) false false 0)
            (call_all
               (decorator (constant "f" (VInt 7)) (Some (Z.of_nat 2)) false false 0)
               [([VStr "A"], []); ([VStr "B"], []); ([VStr "C"], [])] ∅
               (started tt)).1) ≤ 2.
Proof.
  split; [reflexivity|].
  destruct (lru_bound_and_eviction
              (decorator (constant "f" (VInt 7)) (Some (Z.of_nat 2)) false false 0)
              ∅ (started tt) 2 eq_refl (lookup_empty _)) as (H & _).
  apply H.
Defined.



(** * Further properties of the cached members *)

Section MemberFacts.

Context {W : Type}.
Implicit Types (st : @State W) (o : Instance).
Implicit Types (p q : @cached_property W) (m : @cached_method W).

Lemma gets_bypass p n o st :
  negb (caching st) || disabled p = true →
  (gets p n o st).1 = o ∧
  invocations (fn_name (func (base p))) (gets p n o st).2
    = invocations (fn_name (func (base p))) st + n.
Proof.
  revert st. induction n as [|n IH]; intros st Hb; [simpl; split; [done|lia]|].
  simpl. rewrite get_bypass by done.
  destruct (IH (invoke (func (base p)) o [] [] st).2) as [IH1 IH2].
  { by rewrite invoke_caching. }
  rewrite IH1, IH2, invocations_invoke. split; [done|lia].
Qed.

(** X1.  With caching switched off for the process, or with the property
    disabled, an access returns what the function returns on that very
    call and leaves the instance as it is; [n] accesses in a row invoke
    the function [n] times. *)
Theorem bypassed_property_recomputes p o st n :
  negb (caching st) || disabled p = true →
  get p o st =
    (stored (fn_body (func (base p)) (world st) o [] []).1, o,
     (invoke (func (base p)) o [] [] st).2) ∧
  (gets p n o st).1 = o ∧
  invocations (fn_name (func (base p))) (gets p n o st).2
    = invocations (fn_name (func (base p))) st + n.
Proof.
  intros Hb. split; [|by apply gets_bypass].
  by rewrite get_bypass, invoke_result.
Qed.

Lemma cached_name_inj (a b : string) :
  "__cached_" +:+ a = "__cached_" +:+ b → a = b.
Proof. intros H. vm_compute in H. by simplify_eq. Qed.

Lemma wrapper_other_attrs m o args kwargs st name :
  name ≠ m_attrname m → (wrapper m o args kwargs st).1.2 !! name = o !! name.
Proof.
  intros Hn. unfold wrapper.
  destruct (negb (caching st) || m_disabled m).
  { by destruct (invoke _ _ _ _ _). }
  pose proof (cached_func_of_other m o name Hn) as Ho.
  destruct (cached_func_of m o) as [f cache]. simpl in Ho.
  destruct (negb (all_hashable args kwargs)).
  { by destruct (invoke _ _ _ _ _). }
  destruct f as [v|c]; [done|].
  destruct (lru_wrapper _ _ _ _ _) as [[r c'] st']. simpl.
  by rewrite lookup_insert_ne.
Qed.

Lemma call_all_other_attrs m argss o st name :
  name ≠ m_attrname m → (call_all m argss o st).1 !! name = o !! name.
Proof.
  intros Hn. revert o st.
  induction argss as [|[a k] argss IH]; intros o st; [done|].
  simpl. pose proof (wrapper_other_attrs m o a k st name Hn) as Hw.
  destruct (wrapper m o a k st) as [[r o'] st']. simpl in Hw.
  by rewrite IH.
Qed.

Lemma gets_other_attrs p n o st name :
  name ≠ attrname p → (gets p n o st).1 !! name = o !! name.
Proof.
  intros Hn. revert o st. induction n as [|n IH]; intros o st; [done|].
  simpl. pose proof (get_other_attrs p o st name Hn) as Hg.
  destruct (get p o st) as [[r o'] st']. simpl in Hg. by rewrite IH.
Qed.

(** X2.  A value kept for one cached property stays in place and keeps
    being returned whatever is done with the other members of the
    instance: accesses to a property, calls of a cached method and
    clearing a property leave it alone, as long as their slot has another
    name.  Two declared properties have the same slot exactly when they
    are declared under the same name, and a property has the slot of a
    cached method exactly when it is declared under the name of the
    method's function. *)
Theorem members_do_not_interfere q o s :
  o !! attrname q = Some s →
  (∀ p n st st',
     attrname p ≠ attrname q → caching st' = true → disabled q = false →
     get q (gets p n o st).1 st' = (Return s, (gets p n o st).1, st')) ∧
  (∀ m argss st st',
     m_attrname m ≠ attrname q → caching st' = true → disabled q = false →
     get q (call_all m argss o st).1 st' = (Return s, (call_all m argss o st).1, st')) ∧
  (∀ p owner o1,
     attrname p ≠ attrname q → clear_cache p owner o = Return o1 →
     o1 !! attrname q = Some s) ∧
  (∀ n1 n2 (f1 f2 : @PyFunction W) d1 d2 k1 k2,
     attrname (declare n1 f1 d1 k1) = attrname (declare n2 f2 d2 k2) ↔ n1 = n2) ∧
  (∀ n (f1 f2 : @PyFunction W) d1 mx ty d2 k1 k2,
     attrname (declare n f1 d1 k1) = m_attrname (decorator f2 mx ty d2 k2)
     ↔ n = fn_name f2).
Proof.
  intros Ho. split_and!.
  - intros p n st st' Hn Hc Hd. apply get_hit; [done..|].
    by rewrite gets_other_attrs.
  - intros m argss st st' Hn Hc Hd. apply get_hit; [done..|].
    by rewrite call_all_other_attrs.
  - intros p owner o1 Hn Hcl.
    destruct (clear_cache_returns _ _ _ _ Hcl) as [_ Hoth].
    by rewrite Hoth.
  - intros. simpl. split; [apply cached_name_inj|by intros ->].
  - intros. simpl. split; [apply cached_name_inj|by intros ->].
Qed.

(** X3.  Two cached properties declared under the same name (one in a
    class, one in a class it derives from) use one slot of the instance:
    once the first has been computed, an access to the second returns that
    value and does not invoke its own function. *)
Theorem same_name_properties_share_slot p q o st v :
  attrname p = attrname q →
  caching st = true → disabled p = false → disabled q = false →
  o !! attrname p = None →
  (fn_body (func (base p)) (world st) o [] []).1 = Return v →
  ∃ o1 st1,
    get p o st = (Return (SVal v), o1, st1) ∧
    get q o1 st1 = (Return (SVal v), o1, st1).
Proof.
  intros Hn Hc Hdp Hdq Ho Hf. rewrite <- invoke_result in Hf.
  pose proof (invoke_caching (func (base p)) o [] [] st) as Hk.
  rewrite get_miss by done.
  destruct (invoke _ _ _ _ _) as [r st1]. simpl in *. subst r.
  eexists _, _. split; [done|].
  apply get_hit; [congruence|done|]. by rewrite <- Hn, lookup_insert_eq.
Qed.

(** X4.  A cached property declared under the name of the function of a
    cached method uses the slot of that method.  After a call of the
    method the property returns the cache object the call left there;
    after the property has been computed, a call of the method with
    hashable arguments fails with a type error, because the slot holds the
    property's value and the method calls what the slot holds. *)
Theorem property_and_method_share_slot p m o st :
  attrname p = m_attrname m →
  caching st = true → disabled p = false → m_disabled m = false →
  o !! attrname p = None →
  (∀ args kwargs,
     ∃ c, get p (wrapper m o args kwargs st).1.2 (wrapper m o args kwargs st).2
          = (Return (SCache c), (wrapper m o args kwargs st).1.2,
             (wrapper m o args kwargs st).2)) ∧
  (∀ v args kwargs,
     (fn_body (func (base p)) (world st) o [] []).1 = Return v →
     all_hashable args kwargs = true →
     ∃ msg, wrapper m (get p o st).1.2 args kwargs (get p o st).2
            = (Raise (TypeError msg), (get p o st).1.2, (get p o st).2)).
Proof.
  intros Hn Hc Hdp Hdm Ho. split.
  - intros args kwargs.
    assert (caching (wrapper m o args kwargs st).2 = true ∧
            ∃ c, (wrapper m o args kwargs st).1.2 !! attrname p = Some (SCache c))
      as [Hc' [c Hs]].
    { rewrite Hn in Ho |- *.
      destruct (all_hashable args kwargs) eqn:Hh.
      - rewrite wrapper_lru; [|done..|intros v; by rewrite Ho].
        pose proof (invoke_caching (m_func m) (cached_func_of m o).2) as Hi.
        unfold lru_wrapper.
        destruct (lru_maxsize (cache_of m o)) as [[|n]|];
          repeat (match goal with
                  | |- context [cache_get ?k ?es] => destruct (cache_get k es)
                  | |- context [invoke ?f ?i ?a ?k ?s] =>
                      let H := fresh in
                      pose proof (Hi a k s) as H;
                      destruct (invoke f i a k s) as [[?|?] ?]
                  end; simpl in *);
          (split; [congruence|]); eexists; apply lookup_insert_eq.
      - rewrite wrapper_unhashable; [|by rewrite Hc, Hdm|done]. simpl.
        rewrite invoke_caching. split; [done|].
        rewrite (cached_func_of_absent _ _ Ho). simpl.
        eexists. apply lookup_insert_eq. }
    exists c. by apply get_hit.
  - intros v args kwargs Hf Hh. rewrite <- invoke_result in Hf.
    pose proof (invoke_caching (func (base p)) o [] [] st) as Hk.
    rewrite get_miss by done.
    destruct (invoke _ _ _ _ _) as [r st1]. simpl in *. subst r. simpl.
    unfold wrapper. rewrite Hk, Hc, Hdm. simpl.
    rewrite (cached_func_of_present m _ (SVal v))
      by (by rewrite <- Hn, lookup_insert_eq).
    rewrite Hh. simpl. by eexists.
Qed.

(** X5.  A cached result does not notice a change of the instance: after
    any other attribute of the instance has been set, the property still
    returns the value in its slot, and the method still returns the result
    kept for the arguments, neither invoking its function. *)
Theorem cached_results_ignore_instance_changes o st k x :
  caching st = true →
  (∀ p s,
     disabled p = false → o !! attrname p = Some s → k ≠ attrname p →
     get p (<[k := x]> o) st = (Return s, <[k := x]> o, st)) ∧
  (∀ m args kwargs v,
     m_disabled m = false → all_hashable args kwargs = true →
     callable_slot m o → lru_maxsize (cache_of m o) ≠ Some 0 →
     cached m o args kwargs = Some v → k ≠ m_attrname m →
     ∃ o1, wrapper m (<[k := x]> o) args kwargs st = (Return v, o1, st)).
Proof.
  intros Hc. split.
  - intros p s Hd Ho Hk. apply get_hit; [done..|]. by rewrite lookup_insert_ne.
  - intros m args kwargs v Hd Hh Hs Hm Hv Hk.
    assert (cache_of m (<[k := x]> o) = cache_of m o) as Hco.
    { unfold cache_of. by rewrite lookup_insert_ne. }
    unfold cached, cached_entries in Hv.
    destruct (cache_get _ _) as [e|] eqn:Hg; [|done]. simpl in Hv. simplify_eq.
    destruct (wrapper_hit m (<[k := x]> o) args kwargs st e) as (c' & Hw & _);
      [done..| | | |by eexists].
    + intros v. unfold callable_slot in Hs. rewrite lookup_insert_ne by done. apply Hs.
    + by rewrite Hco.
    + unfold cached_entries. by rewrite Hco.
Qed.

End MemberFacts.

Section MethodExtras.

Context {W : Type}.
Implicit Types (st : @State W) (o : Instance).
Implicit Types (p q : @cached_property W) (m : @cached_method W).

Lemma maxsize_one m :
  m_maxsize m = None ∨ (∃ z, m_maxsize m = Some z ∧ (1 ≤ z)%Z) →
  Z.to_nat <$> m_maxsize m = None ∨ (∃ n, Z.to_nat <$> m_maxsize m = Some (S n)).
Proof.
  intros [->|(z & -> & Hz)]; [by left|right].
  exists (Z.to_nat z - 1). simpl. f_equal. lia.
Qed.

(** X6.  The first call of a cached method on an instance without a
    cache, with hashable arguments and a bound of at least one entry (or
    none), invokes the function once; the same call again returns the same
    result and changes neither the instance nor the record of
    invocations. *)
Theorem method_computed_once m o st args kwargs :
  caching st = true → m_disabled m = false → o !! m_attrname m = None →
  total (m_func m) →
  m_maxsize m = None ∨ (∃ z, m_maxsize m = Some z ∧ (1 ≤ z)%Z) →
  all_hashable args kwargs = true →
  ∃ v o1 st1,
    wrapper m o args kwargs st = (Return v, o1, st1) ∧
    invocations (fn_name (m_func m)) st1 = S (invocations (fn_name (m_func m)) st) ∧
    wrapper m o1 args kwargs st1 = (Return v, o1, st1).
Proof.
  intros Hc Hd Ho Ht Hm Hh.
  assert (callable_slot m o) as Hs by (intros v; by rewrite Ho).
  pose proof (fresh_cache_of m o Ho) as Hco.
  destruct (total_invoke (m_func m) (cached_func_of m o).2 args kwargs st Ht)
    as [v Hv].
  destruct (wrapper_miss m o args kwargs st) as (c' & Hw & E1 & E2 & E3);
    [done..| |].
  { unfold cached, cached_entries. by rewrite Hco. }
  rewrite Hv in Hw, E3. unfold cached_entries in E3. rewrite Hco in E1, E2, E3.
  simpl in E1, E2, E3.
  eexists v, _, _. split; [exact Hw|].
  split; [apply invocations_invoke|].
  set (key := make_key args kwargs (m_typed m)) in *.
  assert (lru_entries c' = [(key, v)]) as He.
  { rewrite E3. destruct (maxsize_one m Hm) as [->|[n ->]]; [done|].
    by rewrite bool_decide_eq_false_2 by (simpl; lia). }
  assert (lru_maxsize c' ≠ Some 0) as Hn0.
  { rewrite E1. by destruct (maxsize_one m Hm) as [->|[n ->]]. }
  destruct (wrapper_hit m (<[m_attrname m := SCache c']> o) args kwargs
              (invoke (m_func m) (cached_func_of m o).2 args kwargs st).2
              (key, v))
    as (c'' & Hw2 & F1 & F2 & F3).
  - by rewrite invoke_caching.
  - done.
  - done.
  - apply insert_callable.
  - by rewrite cache_of_insert.
  - unfold cached_entries. rewrite cache_of_insert, E2, He. fold key.
    unfold cache_get. simpl. by rewrite key_eq_refl.
  - rewrite Hw2. simpl. do 2 f_equal.
    rewrite insert_insert_eq. do 2 f_equal.
    rewrite cache_of_insert in F1, F2, F3.
    unfold cached_entries in F3. rewrite cache_of_insert, E2, He in F3.
    fold key in F3.
    assert (lru_entries c'' = lru_entries c') as F3'.
    { rewrite F3, He. destruct (lru_maxsize c'); [|done].
      simpl. by rewrite key_eq_refl. }
    destruct c'', c'. simpl in *. congruence.
Qed.

Lemma call_all_bypass m argss o st :
  negb (caching st) || m_disabled m = true →
  (call_all m argss o st).1 = o ∧
  invocations (fn_name (m_func m)) (call_all m argss o st).2
    = invocations (fn_name (m_func m)) st + length argss.
Proof.
  revert st. induction argss as [|[a k] argss IH]; intros st Hb;
    [simpl; split; [done|lia]|].
  simpl. rewrite wrapper_bypass by done.
  destruct (IH (invoke (m_func m) o a k st).2) as [IH1 IH2].
  { by rewrite invoke_caching. }
  rewrite IH1, IH2, invocations_invoke. split; [done|lia].
Qed.

(** X7.  With caching switched off for the process, or with the method
    disabled, a call returns what the function returns on that very call
    and leaves the instance as it is (no cache object is made); the calls
    of a sequence invoke the function once each. *)
Theorem bypassed_method_recomputes m o st argss :
  negb (caching st) || m_disabled m = true →
  (∀ args kwargs,
     wrapper m o args kwargs st =
       ((fn_body (m_func m) (world st) o args kwargs).1, o,
        (invoke (m_func m) o args kwargs st).2)) ∧
  (call_all m argss o st).1 = o ∧
  invocations (fn_name (m_func m)) (call_all m argss o st).2
    = invocations (fn_name (m_func m)) st + length argss.
Proof.
  intros Hb. split; [|by apply call_all_bypass].
  intros args kwargs. by rewrite wrapper_bypass, invoke_result.
Qed.

Lemma wrapper_nothing_stored m o args kwargs st :
  lru_maxsize (cache_of m o) = Some 0 → cached_entries m o = [] →
  callable_slot m o →
  lru_maxsize (cache_of m (wrapper m o args kwargs st).1.2) = Some 0 ∧
  cached_entries m (wrapper m o args kwargs st).1.2 = [] ∧
  callable_slot m (wrapper m o args kwargs st).1.2 ∧
  invocations (fn_name (m_func m)) (wrapper m o args kwargs st).2
    = S (invocations (fn_name (m_func m)) st).
Proof.
  intros Hm He Hs.
  destruct (negb (caching st) || m_disabled m) eqn:Hb.
  { rewrite wrapper_bypass by done. simpl.
    split_and!; [done..|apply invocations_invoke]. }
  destruct (all_hashable args kwargs) eqn:Hh.
  2:{ rewrite wrapper_unhashable by done. simpl.
      unfold cached_entries. rewrite cache_of_cached_func_of.
      split_and!; [done|done| |apply invocations_invoke].
      intros v. destruct (o !! m_attrname m) as [s|] eqn:Ho.
      - rewrite (cached_func_of_present _ _ _ Ho). simpl. rewrite Ho.
        intros [= ->]. by apply (Hs v).
      - rewrite (cached_func_of_absent _ _ Ho). simpl.
        by rewrite lookup_insert_eq. }
  apply orb_false_elim in Hb as [Hc Hd]. apply negb_false_iff in Hc.
  rewrite wrapper_lru by done.
  destruct (lru_wrapper_miss (cache_of m o)
              (invoke (m_func m) (cached_func_of m o).2) args kwargs st)
    as (c' & -> & E1 & E2 & E3); [by left|].
  simpl. unfold cached_entries. rewrite cache_of_insert.
  split_and!; [congruence| |apply insert_callable|apply invocations_invoke].
  rewrite E3, Hm. by destruct (invoke _ _ _ _ _).1.
Qed.

(** X8.  A cached method with a bound of zero or less keeps no result:
    after any sequence of calls on an instance without a cache the cache
    is empty, and every call has invoked the function. *)
Theorem zero_maxsize_stores_nothing m o st argss z :
  m_maxsize m = Some z → (z ≤ 0)%Z → o !! m_attrname m = None →
  cached_entries m (call_all m argss o st).1 = [] ∧
  invocations (fn_name (m_func m)) (call_all m argss o st).2
    = invocations (fn_name (m_func m)) st + length argss.
Proof.
  intros Hm Hz Ho.
  assert (lru_maxsize (cache_of m o) = Some 0 ∧ cached_entries m o = [] ∧
          callable_slot m o) as Hinv.
  { unfold cached_entries. rewrite (fresh_cache_of _ _ Ho), Hm. simpl.
    split_and!; [f_equal; lia|done|]. intros v. by rewrite Ho. }
  clear Ho. revert o st Hinv.
  induction argss as [|[a k] argss IH]; intros o st (H1 & H2 & H3).
  - simpl. split; [done|lia].
  - simpl. destruct (wrapper_nothing_stored m o a k st H1 H2 H3)
      as (G1 & G2 & G3 & G4).
    destruct (wrapper m o a k st) as [[r o'] st']. simpl in *.
    destruct (IH o' st') as [IH1 IH2]; [done|].
    rewrite IH1, IH2, G4. split; [done|lia].
Qed.

Lemma cache_get_app_Some k es es' e :
  cache_get k es = Some e → cache_get k (es ++ es') = Some e.
Proof.
  unfold cache_get. induction es as [|x es IH]; [done|].
  simpl. by destruct (key_eq x.1 k).
Qed.

Lemma wrapper_unbounded_keeps m o args kwargs st a k e :
  lru_maxsize (cache_of m o) = None →
  cache_get (make_key a k (lru_typed (cache_of m o))) (cached_entries m o) = Some e →
  lru_maxsize (cache_of m (wrapper m o args kwargs st).1.2) = None ∧
  lru_typed (cache_of m (wrapper m o args kwargs st).1.2) = lru_typed (cache_of m o) ∧
  cache_get (make_key a k (lru_typed (cache_of m o)))
    (cached_entries m (wrapper m o args kwargs st).1.2) = Some e.
Proof.
  intros Hm Hg.
  assert (∃ c, o !! m_attrname m = Some (SCache c)) as [c Ho].
  { unfold cached_entries, cache_of in Hg.
    destruct (o !! m_attrname m) as [[v|c]|]; [done|by eexists|done]. }
  destruct (negb (caching st) || m_disabled m) eqn:Hb.
  { by rewrite wrapper_bypass. }
  destruct (all_hashable args kwargs) eqn:Hh.
  2:{ rewrite wrapper_unhashable by done. simpl.
      unfold cached_entries. by rewrite cache_of_cached_func_of. }
  apply orb_false_elim in Hb as [Hc Hd]. apply negb_false_iff in Hc.
  rewrite wrapper_lru; [|done..|intros v; by rewrite Ho].
  destruct (cache_get (make_key args kwargs (lru_typed (cache_of m o)))
              (lru_entries (cache_of m o))) as [e'|] eqn:Hg'.
  - destruct (lru_wrapper_hit (cache_of m o)
                (invoke (m_func m) (cached_func_of m o).2) args kwargs st e')
      as (c' & -> & E1 & E2 & E3); [by rewrite Hm|done|].
    simpl. unfold cached_entries. rewrite cache_of_insert.
    rewrite Hm in E3. by rewrite E1, E2, E3.
  - destruct (lru_wrapper_miss (cache_of m o)
                (invoke (m_func m) (cached_func_of m o).2) args kwargs st)
      as (c' & -> & E1 & E2 & E3); [by right|].
    simpl. unfold cached_entries. rewrite cache_of_insert.
    rewrite Hm in E3. rewrite E1, E2, E3. split_and!; [done..|].
    destruct (invoke _ _ _ _ _).1; [|done].
    by apply cache_get_app_Some.
Qed.

(** X9.  A cache without a bound never drops a result: what it holds for
    given arguments it still holds after any sequence of calls of the
    method. *)
Theorem unbounded_cache_keeps_results m o st argss args kwargs v :
  lru_maxsize (cache_of m o) = None →
  cached m o args kwargs = Some v →
  cached m (call_all m argss o st).1 args kwargs = Some v.
Proof.
  intros Hm Hc. unfold cached in Hc.
  destruct (cache_get _ (cached_entries m o)) as [e|] eqn:Hg; [|done].
  simpl in Hc. simplify_eq.
  revert o st Hm Hg. induction argss as [|[a k] argss IH]; intros o st Hm Hg.
  - simpl. unfold cached. by rewrite Hg.
  - simpl.
    destruct (wrapper_unbounded_keeps m o a k st args kwargs e Hm Hg)
      as (H1 & H2 & H3).
    destruct (wrapper m o a k st) as [[r o'] st']. simpl in *.
    apply IH; [done|]. by rewrite H2.
Qed.

(** X10.  Clearing the cache of a method removes the slot of the method
    when the instance holds it; when the instance does not hold it,
    clearing changes nothing if the type of the instance does not answer
    for the name of the slot either, and raises an attribute error if it
    does.  A clearing that returns leaves the slot empty and every other
    attribute as it was; no result is kept afterwards, and the next call,
    whatever its arguments, invokes the function. *)
Theorem method_clear_then_recompute m owner o st :
  (∀ s, o !! m_attrname m = Some s →
        method_clear_cache m owner o = Return (delete (m_attrname m) o)) ∧
  (o !! m_attrname m = None →
     method_clear_cache m owner o =
       if owner (m_attrname m) then Raise (AttributeError (m_attrname m))
       else Return o) ∧
  (∀ o1, method_clear_cache m owner o = Return o1 →
     o1 !! m_attrname m = None ∧
     (∀ name, name ≠ m_attrname m → o1 !! name = o !! name) ∧
     (∀ args kwargs, cached m o1 args kwargs = None) ∧
     (∀ args kwargs,
        invocations (fn_name (m_func m)) (wrapper m o1 args kwargs st).2
          = S (invocations (fn_name (m_func m)) st))).
Proof.
  assert (∀ s, o !! m_attrname m = Some s →
               method_clear_cache m owner o = Return (delete (m_attrname m) o))
    as Hpresent.
  { intros s Ho. unfold method_clear_cache, hasattr, delattr. rewrite Ho.
    by rewrite bool_decide_eq_true_2. }
  assert (o !! m_attrname m = None →
          method_clear_cache m owner o =
            if owner (m_attrname m) then Raise (AttributeError (m_attrname m))
            else Return o) as Habsent.
  { intros Ho. unfold method_clear_cache, hasattr, delattr. rewrite Ho.
    by rewrite bool_decide_eq_false_2 by (by intros [? ?]). }
  split_and!; [done..|].
  intros o1 Hcl.
  assert (o1 !! m_attrname m = None ∧
          ∀ name, name ≠ m_attrname m → o1 !! name = o !! name) as [Ho1 Hoth].
  { destruct (o !! m_attrname m) as [s|] eqn:Ho.
    - rewrite (Hpresent s eq_refl) in Hcl. simplify_eq.
      split; [apply lookup_delete_eq|]. intros name Hn. by apply lookup_delete_ne.
    - rewrite (Habsent eq_refl) in Hcl.
      destruct (owner _); [done|]. by simplify_eq. }
  split_and!; [done..| |].
  - intros args kwargs. unfold cached, cached_entries.
    by rewrite (fresh_cache_of _ _ Ho1).
  - intros args kwargs.
    destruct (negb (caching st) || m_disabled m) eqn:Hb.
    { rewrite wrapper_bypass by done. apply invocations_invoke. }
    destruct (all_hashable args kwargs) eqn:Hh.
    2:{ rewrite wrapper_unhashable by done. apply invocations_invoke. }
    apply orb_false_elim in Hb as [Hc Hd]. apply negb_false_iff in Hc.
    destruct (wrapper_miss m o1 args kwargs st) as (c' & -> & _);
      [done|done|done|intros v; by rewrite Ho1| |apply invocations_invoke].
    unfold cached, cached_entries. by rewrite (fresh_cache_of _ _ Ho1).
Qed.

(** X11.  The way the arguments are passed is part of the key: passing a
    value by position and then the same value by keyword, or the same two
    keyword arguments in the two orders, invokes the function twice. *)
Theorem call_shape_is_part_of_the_key m o st :
  caching st = true → m_disabled m = false → o !! m_attrname m = None →
  total (m_func m) →
  m_maxsize m = None ∨ (∃ z, m_maxsize m = Some z ∧ (2 ≤ z)%Z) →
  (∀ name v,
     is_hashable v = true →
     invocations (fn_name (m_func m))
       (call_all m [([v], []); ([], [(name, v)])] o st).2
       = invocations (fn_name (m_func m)) st + 2) ∧
  (∀ a b x y,
     a ≠ b → is_hashable x = true → is_hashable y = true →
     invocations (fn_name (m_func m))
       (call_all m [([], [(a, x); (b, y)]); ([], [(b, y); (a, x)])] o st).2
       = invocations (fn_name (m_func m)) st + 2).
Proof.
  intros Hc Hd Ho Ht Hm. split.
  - intros name v Hv.
    destruct (two_calls m o st [v] [] [] [(name, v)] Hc Hd Ho Ht Hm) as [H _].
    { unfold all_hashable. simpl. by rewrite Hv. }
    { unfold all_hashable. simpl. by rewrite Hv. }
    replace (key_eq _ _) with false in H; [done|].
    unfold make_key. simpl. destruct (m_typed m); simpl; [done|].
    by destruct (fasttype v).
  - intros a b x y Hab Hx Hy.
    destruct (two_calls m o st [] [(a, x); (b, y)] [] [(b, y); (a, x)]
                Hc Hd Ho Ht Hm) as [H _].
    { unfold all_hashable. simpl. by rewrite Hx, Hy. }
    { unfold all_hashable. simpl. by rewrite Hx, Hy. }
    replace (key_eq _ _) with false in H; [done|].
    unfold make_key. simpl.
    assert (bool_decide (a = b) = false) as Hf by (by apply bool_decide_eq_false_2).
    destruct (m_typed m); simpl; by rewrite Hf.
Qed.

End MethodExtras.

(** * Further properties of the traversal *)

Lemma similar_refl h : similar h h.
Proof. intros l. by destruct (h !! l). Qed.

Lemma similar_sym h h1 : similar h h1 → similar h1 h.
Proof.
  intros H l. specialize (H l).
  destruct (h !! l), (h1 !! l); try done.
  destruct H as [H1 H2]. split; [done|]. intros Hn. symmetry. apply H2. congruence.
Qed.

Lemma similar_trans h1 h2 h3 : similar h1 h2 → similar h2 h3 → similar h1 h3.
Proof.
  intros H12 H23 l. specialize (H12 l). specialize (H23 l).
  destruct (h1 !! l), (h2 !! l), (h3 !! l); try done.
  destruct H12 as [A1 A2], H23 as [B1 B2]. split; [congruence|].
  intros Hn. rewrite A2 by done. apply B2. congruence.
Qed.

Lemma updated_similar h h' : updated h h' → similar h h'.
Proof.
  intros Hu l. destruct (Hu l) as [E|(kw & sub & E1 & Hc & E2)].
  - rewrite E. by destruct (h !! l).
  - rewrite E1, E2. split; [by rewrite lookup_insert_ne|].
    intros Hn. rewrite Hn in Hc. by destruct Hc.
Qed.

Lemma similar_alter h h1 l (sub : Dict) :
  similar h h1 →
  similar (alter (insert "child_attrs" (OAttrs sub)) l h)
          (alter (insert "child_attrs" (OAttrs sub)) l h1).
Proof.
  intros Hs l'. specialize (Hs l'). destruct (decide (l = l')) as [<-|Hne].
  - rewrite !lookup_alter_eq.
    destruct (h !! l), (h1 !! l); simpl; try done.
    destruct Hs as [H1 H2]. rewrite !lookup_insert_ne by done.
    split; [done|]. intros Hn. by rewrite H2.
  - by rewrite !lookup_alter_ne.
Qed.

Lemma insert_selected (attrs : Dict) attr x (b : bool) :
  <[attr := x]> (if b then <[attr := x]> attrs else attrs) = <[attr := x]> attrs.
Proof. destruct b; [apply insert_insert_eq|done]. Qed.

Lemma loop_similar rec rec1 key value members :
  (∀ child h h1 r h', similar h h1 →
     rec child h = Some (Return (r, h')) →
     ∃ h1', rec1 child h1 = Some (Return (r, h1')) ∧ similar h' h1') →
  ∀ attrs h h1 attrs' h',
    similar h h1 →
    loop rec key value members attrs h = Some (Return (attrs', h')) →
    ∃ h1', loop rec1 key value members attrs h1 = Some (Return (attrs', h1')) ∧
           similar h' h1'.
Proof.
  intros Hrec. induction members as [|[attr [l|]] members IH];
    intros attrs h h1 attrs' h' Hs Hloop; simpl in *.
  - simplify_eq. by exists h1.
  - pose proof (Hs l) as Hl.
    destruct (h !! l) as [kw|] eqn:E, (h1 !! l) as [kw1|] eqn:E1; try done.
    2:{ by eapply IH. }
    destruct Hl as [Hc Hsame]. rewrite <- Hc.
    destruct (kw !! "child_cls") as [child|] eqn:Hch.
    + destruct (assert_type child) as [c'|e]; [|done].
      destruct (rec child h) as [[[sub h2]|e]|] eqn:Hr; [|done..].
      destruct (Hrec _ _ _ _ _ Hs Hr) as (h2' & -> & Hs2).
      rewrite insert_selected in Hloop |- *.
      eapply IH; [|exact Hloop]. by apply similar_alter.
    + rewrite <- (Hsame eq_refl). by eapply IH.
  - by eapply IH.
Qed.

(** The mapping a traversal returns depends on the configuration only
    through what [similar] keeps. *)
Lemma traverse_similar fuel classes cls key value h h1 attrs h' :
  similar h h1 →
  traverse_attr_kwargs fuel classes cls key value h = Some (Return (attrs, h')) →
  ∃ h1', traverse_attr_kwargs fuel classes cls key value h1
           = Some (Return (attrs, h1')) ∧ similar h' h1'.
Proof.
  revert cls value h h1 attrs h'.
  induction fuel as [|fuel IH]; intros cls value h h1 attrs h' Hs Ht; [done|].
  simpl in *. destruct (assert_type cls) as [c|e]; [|done].
  eapply loop_similar; [|exact Hs|exact Ht].
  intros child g g1 r g' Hg Hr. by eapply IH.
Qed.

Lemma normalize_idemp value : normalize (normalize value) = normalize value.
Proof. by destruct value. Qed.

Lemma traverse_normalize fuel classes cls key value h :
  traverse_attr_kwargs fuel classes cls key (normalize value) h
    = traverse_attr_kwargs fuel classes cls key value h.
Proof. destruct fuel; [done|]. simpl. by rewrite normalize_idemp. Qed.

(** X15.  The mapping of member names to configuration dictionaries that
    a traversal returns does not depend on the [child_attrs] entries left
    by earlier traversals: the same traversal started again on the
    configuration it left behind, or on the one left by any other
    traversal, returns the same mapping. *)
Theorem traversal_result_stable fuel classes cls key value h attrs h' :
  traverse_attr_kwargs fuel classes cls key value h = Some (Return (attrs, h')) →
  (∃ h'', traverse_attr_kwargs fuel classes cls key value h'
            = Some (Return (attrs, h''))) ∧
  (∀ fuel2 cls2 key2 value2 attrs2 h2,
     traverse_attr_kwargs fuel2 classes cls2 key2 value2 h
       = Some (Return (attrs2, h2)) →
     ∃ h'', traverse_attr_kwargs fuel classes cls key value h2
              = Some (Return (attrs, h''))).
Proof.
  intros Ht. split.
  - pose proof (traverse_spec _ _ _ _ _ _ _ _ Ht) as [Hu _].
    destruct (traverse_similar _ _ _ _ _ _ _ _ _ (updated_similar _ _ Hu) Ht)
      as (h'' & Ht' & _).
    by exists h''.
  - intros fuel2 cls2 key2 value2 attrs2 h2 Ht2.
    pose proof (traverse_spec _ _ _ _ _ _ _ _ Ht2) as [Hu _].
    destruct (traverse_similar _ _ _ _ _ _ _ _ _ (updated_similar _ _ Hu) Ht)
      as (h'' & Ht' & _).
    by exists h''.
Qed.

Lemma loop_blocked rec key value members attr l kw child h0 :
  (∀ ch h r h', rec ch h = Some (Return (r, h')) → updated h h') →
  h0 !! l = Some kw → kw !! "child_cls" = Some child →
  (∃ e, assert_type child = Raise e) ∨
    (∀ h1 r, updated h0 h1 → rec child h1 ≠ Some (Return r)) →
  (attr, Some l) ∈ members →
  ∀ attrs h r, updated h0 h →
    loop rec key value members attrs h ≠ Some (Return r).
Proof.
  intros Hrec E0 Hc0 Hb. induction members as [|[a [l'|]] members IH];
    intros Hin attrs h r Hu; [by apply elem_of_nil in Hin| |].
  - simpl. apply elem_of_cons in Hin as [[= -> ->]|Hin].
    + destruct (updated_lookup _ _ _ _ Hu E0) as (kwc & -> & Hc & _).
      rewrite Hc, Hc0.
      destruct Hb as [[e ->]|Hb]; [done|].
      destruct (assert_type child); [|done].
      specialize (Hb h). destruct (rec child h) as [[[sub h1]|e]|]; [|done..].
      by destruct (Hb (sub, h1) Hu).
    + destruct (h !! l') as [kwc|] eqn:El; [|by apply IH].
      destruct (kwc !! "child_cls") as [ch|] eqn:Hch; [|by apply IH].
      destruct (assert_type ch); [|done].
      destruct (rec ch h) as [[[sub h1]|e]|] eqn:Hr; [|done..].
      apply IH; [done|].
      eapply updated_trans; [exact Hu|].
      pose proof (Hrec _ _ _ _ Hr) as Hu1.
      eapply updated_trans; [exact Hu1|].
      destruct (updated_lookup _ _ _ _ Hu1 El) as (kw1 & El1 & Hc1 & _).
      eapply updated_alter; [done|]. rewrite Hc1, Hch. by eexists.
  - simpl. apply elem_of_cons in Hin as [[= ]|Hin]. by apply IH.
Qed.

Lemma traverse_updated fuel classes cls key value h r h' :
  traverse_attr_kwargs fuel classes cls key value h = Some (Return (r, h')) →
  updated h h'.
Proof. by intros [? _]%traverse_spec. Qed.

(** X12.  A traversal without a key lists every member that has a
    configuration, whatever value filter is given with it; a traversal
    with a key and no value filter lists the members whose configuration
    has the key or declares a child class. *)
Theorem traversal_without_filter fuel classes c value h attrs h' :
  (traverse_attr_kwargs fuel classes (OType c) None value h
     = Some (Return (attrs, h')) →
   ∀ attr, is_Some (attrs !! attr) ↔
     ∃ l kwargs, (attr, Some l) ∈ dir classes c ∧ h !! l = Some kwargs) ∧
  (∀ K,
     traverse_attr_kwargs fuel classes (OType c) (Some K) VNone h
       = Some (Return (attrs, h')) →
     ∀ attr, is_Some (attrs !! attr) ↔
       ∃ l kwargs, (attr, Some l) ∈ dir classes c ∧ h !! l = Some kwargs ∧
         (is_Some (kwargs !! K) ∨ is_Some (kwargs !! "child_cls"))).
Proof.
  split.
  - intros Ht attr. apply traverse_spec in Ht as (_ & c' & [= <-] & Hdom & _).
    rewrite Hdom. unfold listed. simpl. split.
    + intros (l & kw & ? & ? & _). by exists l, kw.
    + intros (l & kw & ? & ?). exists l, kw. split_and!; [done..|by left].
  - intros K Ht attr. apply traverse_spec in Ht as (_ & c' & [= <-] & Hdom & _).
    rewrite Hdom. unfold listed. simpl. split.
    + intros (l & kw & ? & ? & Hs). exists l, kw. split_and!; [done..|].
      destruct Hs as [Hs|?]; [left|by right].
      by destruct (kw !! K).
    + intros (l & kw & ? & ? & Hs). exists l, kw. split_and!; [done..|].
      destruct Hs as [[x Hx]|?]; [left|by right]. by rewrite Hx.
Qed.

(** X13.  A traversal started on something that is no class fails with a
    type error, and a traversal of a class one of whose members declares a
    child that is no class never returns a mapping, whatever the filter
    and whatever the other members are. *)
Theorem traversal_type_mismatch classes :
  (∀ fuel cls key value h,
     (∀ c, cls ≠ OType c) →
     ∃ msg, traverse_attr_kwargs (S fuel) classes cls key value h
              = Some (Raise (TypeError msg))) ∧
  (∀ c attr l h kwargs child fuel key value r,
     (attr, Some l) ∈ dir classes c → h !! l = Some kwargs →
     kwargs !! "child_cls" = Some child → (∀ c', child ≠ OType c') →
     traverse_attr_kwargs fuel classes (OType c) key value h ≠ Some (Return r)).
Proof.
  split.
  - intros fuel cls key value h Hn. simpl.
    destruct cls as [v|c|l|d]; simpl; [by eexists|by destruct (Hn c)|by eexists..].
  - intros c attr l h kw child fuel key value r Hin El Hc Hn.
    destruct fuel as [|fuel]; [done|]. simpl.
    eapply loop_blocked; [|exact El|exact Hc| |exact Hin|apply updated_refl].
    + intros ch g r' g'. apply traverse_updated.
    + left. destruct child as [v|c'|l'|d]; simpl; [by eexists|by destruct (Hn c')|by eexists..].
Qed.


Section Traced.

Variables (classes : Classes) (key : option string) (value : Value).

Lemma traced_updated h0 h : traced classes key value h0 h → updated h0 h.
Proof.
  intros Ht l. destruct (Ht l) as [E|(kw & c' & sub & h2 & f & E0 & Hc & E & _)].
  - by left.
  - right. exists kw, sub. split_and!; [done| |done]. by eexists.
Qed.

Lemma traced_refl h : traced classes key value h h.
Proof. intros l. by left. Qed.

Lemma written_rebase h0 h h' l :
  similar h h0 →
  h !! l = h0 !! l →
  written classes key value h h' l → written classes key value h0 h' l.
Proof.
  intros Hs El (kw & c' & sub & h2 & f & E0 & Hc & E & Ht).
  destruct (traverse_similar _ _ _ _ _ _ _ _ _ Hs Ht) as (h2' & Ht' & _).
  exists kw, c', sub, h2', f. split_and!; [congruence|done..].
Qed.

Lemma written_step h0 h h' l :
  similar h h0 →
  written classes key value h0 h l →
  traced classes key value h h' →
  written classes key value h0 h' l.
Proof.
  intros Hs (kw & c' & sub & h2 & f & E0 & Hc & E & Ht) Htr.
  destruct (Htr l) as [E'|(kw1 & c1 & sub1 & h21 & f1 & E1 & Hc1 & E1' & Ht1)].
  - exists kw, c', sub, h2, f. split_and!; [done..|congruence|done].
  - rewrite E in E1. simplify_eq.
    rewrite lookup_insert_ne in Hc1 by done. rewrite Hc in Hc1. simplify_eq.
    destruct (traverse_similar _ _ _ _ _ _ _ _ _ Hs Ht1) as (h2' & Ht' & _).
    exists kw, c1, sub1, h2', f1. split_and!; [done..| |done].
    by rewrite E1', insert_insert_eq.
Qed.

Lemma traced_trans h0 h h' :
  traced classes key value h0 h → traced classes key value h h' →
  traced classes key value h0 h'.
Proof.
  intros H1 H2 l.
  pose proof (similar_sym _ _ (updated_similar _ _ (traced_updated _ _ H1))) as Hs.
  destruct (H1 l) as [E|Hw].
  - destruct (H2 l) as [E'|Hw'].
    + left. congruence.
    + right. by eapply written_rebase.
  - right. by eapply written_step.
Qed.

Lemma traced_alter h0 h l kw c' sub h2 fuel :
  traced classes key value h0 h →
  h0 !! l = Some kw → kw !! "child_cls" = Some (OType c') →
  traverse_attr_kwargs fuel classes (OType c') key value h0
    = Some (Return (sub, h2)) →
  traced classes key value h0 (alter (insert "child_attrs" (OAttrs sub)) l h) ∧
  written classes key value h0 (alter (insert "child_attrs" (OAttrs sub)) l h) l.
Proof.
  intros Htr E0 Hc Ht.
  assert (written classes key value h0
            (alter (insert "child_attrs" (OAttrs sub)) l h) l) as Hw.
  { exists kw, c', sub, h2, fuel. split_and!; [done..| |done].
    rewrite lookup_alter_eq.
    destruct (Htr l) as [E|(kw1 & c1 & sub1 & h21 & f1 & E1 & Hc1 & E1' & Ht1)].
    - by rewrite E, E0.
    - rewrite E1'. simpl. rewrite E0 in E1. simplify_eq.
      by rewrite insert_insert_eq. }
  split; [|done]. intros l'. destruct (decide (l = l')) as [<-|Hne].
  - by right.
  - rewrite lookup_alter_ne by done.
    destruct (Htr l') as [E|(kw1 & c1 & sub1 & h21 & f1 & E1 & Hc1 & E1' & Ht1)];
      [by left|right].
    exists kw1, c1, sub1, h21, f1. split_and!; [done..| |done].
    by rewrite lookup_alter_ne.
Qed.

Lemma loop_traced fuel members :
  (∀ cls h r h',
     traverse_attr_kwargs fuel classes cls key value h = Some (Return (r, h')) →
     traced classes key value h h') →
  ∀ attrs h attrs' h' h0,
    traced classes key value h0 h →
    loop (λ child h, traverse_attr_kwargs fuel classes child key value h)
      key value members attrs h = Some (Return (attrs', h')) →
    traced classes key value h0 h' ∧
    ∀ attr l kw c', (attr, Some l) ∈ members → h0 !! l = Some kw →
      kw !! "child_cls" = Some (OType c') →
      written classes key value h0 h' l.
Proof.
  intros Hrec. induction members as [|[attr [l|]] members IH];
    intros attrs h attrs' h' h0 Htr Hloop; simpl in Hloop.
  - simplify_eq. split; [done|]. by intros ???? ?%elem_of_nil.
  - pose proof (traced_updated _ _ Htr) as Hu.
    destruct (h !! l) as [kwc|] eqn:El.
    2:{ destruct (IH _ _ _ _ _ Htr Hloop) as [IH1 IH2]. split; [done|].
        intros a l' kw c' [[= -> ->]|Hin]%elem_of_cons E0 Hc; [|by eapply IH2].
        destruct (updated_lookup _ _ _ _ Hu E0) as (? & ? & _). congruence. }
    destruct (updated_lookup_inv _ _ _ _ Hu El) as (kw0 & E0 & Hc0).
    destruct (kwc !! "child_cls") as [child|] eqn:Hch.
    + destruct (assert_type child) as [c'|e] eqn:Ha; [|done].
      destruct child as [ |c''| | ]; simpl in Ha; simplify_eq.
      destruct (traverse_attr_kwargs fuel classes (OType c') key value h)
        as [[[sub h1]|e]|] eqn:Hr; [|done..].
      pose proof (Hrec _ _ _ _ Hr) as Htr1.
      pose proof (traced_trans _ _ _ Htr Htr1) as Htr01.
      destruct (traverse_similar _ _ _ _ _ _ _ _ _
                  (similar_sym _ _ (updated_similar _ _ Hu)) Hr)
        as (h1' & Hr0 & _).
      destruct (traced_alter h0 h1 l kw0 c' sub h1' fuel Htr01 E0)
        as [Htr2 Hw2]; [done..|].
      destruct (IH _ _ _ _ _ Htr2 Hloop) as [IH1 IH2].
      destruct (IH _ _ _ _ _ (traced_refl _) Hloop) as [IH1' _].
      split; [done|].
      intros a l' kw c1 [[= -> ->]|Hin]%elem_of_cons E0' Hc; [|by eapply IH2].
      eapply written_step; [|exact Hw2|exact IH1'].
      apply similar_sym, updated_similar, traced_updated, Htr2.
    + destruct (IH _ _ _ _ _ Htr Hloop) as [IH1 IH2]. split; [done|].
      intros a l' kw c' [[= -> ->]|Hin]%elem_of_cons E0' Hc; [|by eapply IH2].
      rewrite E0 in E0'. simplify_eq. congruence.
  - destruct (IH _ _ _ _ _ Htr Hloop) as [IH1 IH2]. split; [done|].
    intros a l' kw c' [[= ]|Hin]%elem_of_cons E0 Hc. by eapply IH2.
Qed.

End Traced.

Lemma traverse_traced fuel classes key value :
  normalize value = value →
  ∀ cls h attrs h',
    traverse_attr_kwargs fuel classes cls key value h = Some (Return (attrs, h')) →
    traced classes key value h h' ∧
    ∀ c attr l kw c', cls = OType c → (attr, Some l) ∈ dir classes c →
      h !! l = Some kw → kw !! "child_cls" = Some (OType c') →
      written classes key value h h' l.
Proof.
  intros Hn. induction fuel as [|fuel IH]; intros cls h attrs h' Ht; [done|].
  simpl in Ht. destruct cls as [v|c|l|d]; try done. simpl in Ht.
  rewrite Hn in Ht.
  eapply loop_traced in Ht as [H1 H2]; [| |apply traced_refl].
  - split; [done|]. intros c0 attr l kw c' [= <-]. by apply H2.
  - intros cls g r g' Hr. by apply IH in Hr as [? _].
Qed.

(** X16.  After a traversal that returns, the configuration of every
    member of the class that declares a child class is the one it was with
    the [child_attrs] entry set to what a traversal of the child class with
    the same filter returns on the configuration the traversal started
    from. *)
Theorem child_attrs_is_child_traversal fuel classes c key value h attrs h'
    attr l kwargs c' :
  traverse_attr_kwargs fuel classes (OType c) key value h
    = Some (Return (attrs, h')) →
  (attr, Some l) ∈ dir classes c → h !! l = Some kwargs →
  kwargs !! "child_cls" = Some (OType c') →
  ∃ sub h2 fuel',
    h' !! l = Some (<["child_attrs" := OAttrs sub]> kwargs) ∧
    traverse_attr_kwargs fuel' classes (OType c') key value h
      = Some (Return (sub, h2)).
Proof.
  intros Ht Hin El Hc.
  pose proof Ht as Ht'. rewrite <- traverse_normalize in Ht'.
  destruct (traverse_traced fuel classes key (normalize value)
              (normalize_idemp value) _ _ _ _ Ht') as [_ Hw].
  destruct (Hw c attr l kwargs c' eq_refl Hin El Hc)
    as (kw & c1 & sub & h2 & f & E0 & Hc1 & E & Hsub).
  rewrite El in E0. simplify_eq.
  exists sub, h2, f. split; [done|]. by rewrite <- traverse_normalize.
Qed.

(** * Further properties of the binder *)






(** * The further properties on the sample declarations *)

Lemma bypassed_property_recomputes_witness :
  negb (caching (started tt))
    || disabled (declare "p" (constant "p" (VInt 7)) true 0) = true ∧
  invocations "p"
    (gets (declare "p" (constant "p" (VInt 7)) true 0) 3 ∅ (started tt)).2 = 3.
Proof.
  split; [reflexivity|].
  exact (proj2 (proj2 (bypassed_property_recomputes
                         (declare "p" (constant "p" (VInt 7)) true 0) ∅
                         (started tt) 3 eq_refl))).
Defined.

Lemma members_do_not_interfere_witness :
  computed_p !! attrname property_seven = Some (SVal (VInt 7)) ∧
  get property_seven
    (call_all unbounded_f [([VInt 1], []); ([VInt 2], [])] computed_p
       (started tt)).1 (started tt)
  = (Return (SVal (VInt 7)),
     (call_all unbounded_f [([VInt 1], []); ([VInt 2], [])] computed_p
        (started tt)).1, started tt).
Proof.
  assert (computed_p !! attrname property_seven = Some (SVal (VInt 7))) as Ho.
  { vm_compute. reflexivity. }
  split; [exact Ho|].
  destruct (members_do_not_interfere property_seven computed_p _ Ho)
    as (_ & H & _).
  apply H; [|reflexivity|reflexivity].
  vm_compute. discriminate.
Defined.

Lemma same_name_properties_share_slot_witness :
  attrname property_seven = attrname (declare "p" (constant "q" (VInt 8)) false 1) ∧
  ∃ o1 st1,
    get property_seven ∅ (started tt) = (Return (SVal (VInt 7)), o1, st1) ∧
    get (declare "p" (constant "q" (VInt 8)) false 1) o1 st1
      = (Return (SVal (VInt 7)), o1, st1).
Proof.
  split; [reflexivity|].
  apply (same_name_properties_share_slot property_seven
           (declare "p" (constant "q" (VInt 8)) false 1) ∅ (started tt) (VInt 7));
    [reflexivity|reflexivity|reflexivity|reflexivity|apply lookup_empty|reflexivity].
Defined.

Lemma property_and_method_share_slot_witness :
  attrname property_seven = m_attrname (method_f (constant "p" (VInt 8)) false) ∧
  ∃ msg,
    wrapper (method_f (constant "p" (VInt 8)) false)
      (get property_seven ∅ (started tt)).1.2 [VInt 1] []
      (get property_seven ∅ (started tt)).2
    = (Raise (TypeError msg), (get property_seven ∅ (started tt)).1.2,
       (get property_seven ∅ (started tt)).2).
Proof.
  split; [reflexivity|].
  destruct (property_and_method_share_slot property_seven
              (method_f (constant "p" (VInt 8)) false) ∅ (started tt))
    as [_ H];
    [reflexivity|reflexivity|reflexivity|reflexivity|apply lookup_empty|].
  apply (H (VInt 7)); reflexivity.
Defined.

Lemma cached_results_ignore_instance_changes_witness :
  caching (started tt) = true ∧
  get property_seven (<["size" := SVal (VInt 3)]> computed_p) (started tt)
  = (Return (SVal (VInt 7)), <["size" := SVal (VInt 3)]> computed_p, started tt).
Proof.
  split; [reflexivity|].
  destruct (cached_results_ignore_instance_changes computed_p (started tt)
              "size" (SVal (VInt 3)) eq_refl) as [H _].
  apply H; [reflexivity|vm_compute; reflexivity|vm_compute; discriminate].
Defined.

Lemma method_computed_once_witness :
  all_hashable [VInt 1] [("axis", VInt 0)] = true ∧
  ∃ v o1 st1,
    wrapper (method_f (constant "f" (VInt 7)) false) ∅ [VInt 1]
      [("axis", VInt 0)] (started tt) = (Return v, o1, st1) ∧
    invocations "f" st1 = 1 ∧
    wrapper (method_f (constant "f" (VInt 7)) false) o1 [VInt 1]
      [("axis", VInt 0)] st1 = (Return v, o1, st1).
Proof.
  split; [reflexivity|].
  apply (method_computed_once (method_f (constant "f" (VInt 7)) false) ∅
           (started tt) [VInt 1] [("axis", VInt 0)]);
    [reflexivity|reflexivity|apply lookup_empty|apply constant_total| |reflexivity].
  right. exists 128%Z. split; [reflexivity|lia].
Defined.

Lemma bypassed_method_recomputes_witness :
  negb (caching (started tt))
    || m_disabled (decorator (constant "f" (VInt 7)) (Some 128%Z) false true 0)
    = true ∧
  invocations "f"
    (call_all (decorator (constant "f" (VInt 7)) (Some 128%Z) false true 0)
       [([VInt 1], []); ([VInt 1], [])] ∅ (started tt)).2 = 2.
Proof.
  split; [reflexivity|].
  exact (proj2 (proj2 (bypassed_method_recomputes
                         (decorator (constant "f" (VInt 7)) (Some 128%Z) false true 0)
                         ∅ (started tt) [([VInt 1], []); ([VInt 1], [])] eq_refl))).
Defined.

Lemma zero_maxsize_stores_nothing_witness :
  (0 ≤ 0)%Z ∧
  cached_entries (decorator (constant "f" (VInt 7)) (Some 0%Z) false false 0)
    (call_all (decorator (constant "f" (VInt 7)) (Some 0%Z) false false 0)
       [([VInt 1], []); ([VInt 1], [])] ∅ (started tt)).1 = [] ∧
  invocations "f"
    (call_all (decorator (constant "f" (VInt 7)) (Some 0%Z) false false 0)
       [([VInt 1], []); ([VInt 1], [])] ∅ (started tt)).2 = 2.
Proof.
  split; [lia|].
  apply (zero_maxsize_stores_nothing
           (decorator (constant "f" (VInt 7)) (Some 0%Z) false false 0) ∅
           (started tt) [([VInt 1], []); ([VInt 1], [])] 0%Z);
    [reflexivity|lia|apply lookup_empty].
Defined.

Lemma unbounded_cache_keeps_results_witness :
  cached unbounded_f (call_all unbounded_f [([VInt 1], [])] ∅ (started tt)).1
    [VInt 1] [] = Some (VInt 7) ∧
  cached unbounded_f
    (call_all unbounded_f [([VInt 2], []); ([VInt 3], [])]
       (call_all unbounded_f [([VInt 1], [])] ∅ (started tt)).1 (started tt)).1
    [VInt 1] [] = Some (VInt 7).
Proof.
  assert (cached unbounded_f
            (call_all unbounded_f [([VInt 1], [])] ∅ (started tt)).1
            [VInt 1] [] = Some (VInt 7)) as Hc.
  { vm_compute. reflexivity. }
  split; [exact Hc|].
  apply unbounded_cache_keeps_results; [vm_compute; reflexivity|exact Hc].
Defined.

Lemma method_clear_then_recompute_witness :
  (∅ : Instance) !! m_attrname unbounded_f = None ∧
  method_clear_cache unbounded_f with_getattr ∅
    = Raise (AttributeError "__cached_f") ∧
  ∃ o1,
    method_clear_cache unbounded_f with_getattr
      (call_all unbounded_f [([VInt 1], [])] ∅ (started tt)).1 = Return o1 ∧
    cached unbounded_f o1 [VInt 1] [] = None.
Proof.
  split; [reflexivity|]. split.
  - exact (proj1 (proj2 (method_clear_then_recompute unbounded_f with_getattr
                           ∅ (started tt))) (lookup_empty _)).
  - destruct (method_clear_then_recompute unbounded_f with_getattr
                (call_all unbounded_f [([VInt 1], [])] ∅ (started tt)).1
                (started tt)) as (Hpresent & _ & Hafter).
    eexists. split.
    + eapply Hpresent. vm_compute. reflexivity.
    + eapply Hafter. eapply Hpresent. vm_compute. reflexivity.
Defined.

Lemma call_shape_is_part_of_the_key_witness :
  is_hashable (VInt 1) = true ∧
  invocations "f"
    (call_all (method_f (constant "f" (VInt 7)) false)
       [([VInt 1], []); ([], [("x", VInt 1)])] ∅ (started tt)).2 = 2.
Proof.
  split; [reflexivity|].
  destruct (call_shape_is_part_of_the_key
              (method_f (constant "f" (VInt 7)) false) ∅ (started tt))
    as [H _];
    [reflexivity|reflexivity|apply lookup_empty|apply constant_total| |].
  - right. exists 128%Z. split; [reflexivity|lia].
  - apply (H "x" (VInt 1)). reflexivity.
Defined.

Lemma traversal_without_filter_witness :
  ∃ attrs h',
    traverse_attr_kwargs 2 sample_classes (OType 0) None (VInt 5) sample_heap
      = Some (Return (attrs, h')) ∧
    is_Some (attrs !! "c").
Proof.
  assert (∃ attrs h',
            traverse_attr_kwargs 2 sample_classes (OType 0) None (VInt 5)
              sample_heap = Some (Return (attrs, h'))) as (attrs & h' & Ht).
  { eexists _, _. vm_compute. reflexivity. }
  exists attrs, h'. split; [exact Ht|].
  apply (proj1 (traversal_without_filter 2 sample_classes 0 (VInt 5)
                  sample_heap attrs h') Ht "c").
  exists 2, {[ "other" := OVal (VInt 1) ]}. split.
  - rewrite sample_dir_0. right. right. left.
  - vm_compute. reflexivity.
Defined.

Lemma traversal_type_mismatch_witness :
  untyped_heap !! 0 = Some {[ "child_cls" := OVal (VStr "Child") ]} ∧
  ∀ r, traverse_attr_kwargs 3 looping_classes (OType 0) None VNone untyped_heap
         ≠ Some (Return r).
Proof.
  assert (untyped_heap !! 0 = Some {[ "child_cls" := OVal (VStr "Child") ]})
    as Hl.
  { vm_compute. reflexivity. }
  split; [exact Hl|]. intros r.
  apply (proj2 (traversal_type_mismatch looping_classes) 0 "again" 0
           untyped_heap {[ "child_cls" := OVal (VStr "Child") ]}
           (OVal (VStr "Child")) 3 None VNone r);
    [vm_compute; left|exact Hl|vm_compute; reflexivity|discriminate].
Defined.


Lemma traversal_result_stable_witness :
  traverse_attr_kwargs 2 sample_classes (OType 0) (Some "tag")
    (VTuple [VInt 1; VInt 3]) sample_heap
    = Some (Return (sample_attrs, sample_heap_after)) ∧
  ∃ h'',
    traverse_attr_kwargs 2 sample_classes (OType 0) (Some "tag")
      (VTuple [VInt 1; VInt 3]) sample_heap_after
    = Some (Return (sample_attrs, h'')).
Proof.
  assert (traverse_attr_kwargs 2 sample_classes (OType 0) (Some "tag")
            (VTuple [VInt 1; VInt 3]) sample_heap
          = Some (Return (sample_attrs, sample_heap_after))) as Ht.
  { vm_compute. reflexivity. }
  split; [exact Ht|].
  exact (proj1 (traversal_result_stable _ _ _ _ _ _ _ _ Ht)).
Defined.

Lemma child_attrs_is_child_traversal_witness :
  sample_heap !! 3 = Some {[ "child_cls" := OType 1 ]} ∧
  ∃ sub h2 fuel',
    sample_heap_after !! 3
      = Some (<["child_attrs" := OAttrs sub]> {[ "child_cls" := OType 1 ]}) ∧
    traverse_attr_kwargs fuel' sample_classes (OType 1) (Some "tag")
      (VTuple [VInt 1; VInt 3]) sample_heap = Some (Return (sub, h2)).
Proof.
  assert (sample_heap !! 3 = Some {[ "child_cls" := OType 1 ]}) as Hl.
  { vm_compute. reflexivity. }
  split; [exact Hl|].
  apply (child_attrs_is_child_traversal 2 sample_classes 0 (Some "tag")
           (VTuple [VInt 1; VInt 3]) sample_heap sample_attrs sample_heap_after
           "child" 3 {[ "child_cls" := OType 1 ]} 1);
    [vm_compute; reflexivity| |exact Hl|vm_compute; reflexivity].
  rewrite sample_dir_0. right. right. right. left.
Defined.

